(** * Validator registration approval core (src/validators/utils.py)

    A shallow embedding of the oracle approval client, the keystore loader and
    the validators Merkle tree builder, followed by the properties the
    specification states about them.

    Python values are embedded as follows: [str] as the [string] of its
    UTF-8 encoding (the texts the module tests, replaces in or prefixes are
    ASCII, so these operations act on the encoding as they do on the
    characters), [int] as [Z],
    [bytes] as [list byte], a [dict] that comes from outside (a payload, a
    parsed JSON body, a deposit entry) as an association list in insertion
    order (keys are unique in a Python dict; lookup takes the first binding),
    the dictionaries the code builds itself ([approvals], [keystores]) as
    [gmap string _].  A call that may raise returns a [result].  Code that
    talks to the network, the chain, the validators database or the [random]
    module threads a world and emits the trace of its calls, with their
    answers, and of its log records. *)

From Stdlib Require Import ZArith Ascii String.
From Stdlib.Strings Require Import Byte.
From stdpp Require Import gmap strings list fin_maps sorting.

#[local] Set Warnings "-register-all".

Local Open Scope string_scope.
Local Open Scope list_scope.
Local Open Scope Z_scope.

(** ** Python values, exceptions and results *)

Definition bytes : Type := list byte.

Inductive pyval : Type :=
| PNone
| PStr (s : string)
| PInt (z : Z)
| PList (l : list pyval)
| PDict (d : list (string * pyval)).

Definition dict : Type := list (string * pyval).

(** The exception classes the module raises, catches or lets through.
    [ClientError] stands for [aiohttp.ClientError] and all its subclasses
    ([ClientResponseError], [ClientConnectionError], [ContentTypeError]);
    [TimeoutError] for [asyncio.TimeoutError].  [raise X from e] records [e]
    as the cause. *)
Inductive exn : Type :=
| ClientError (detail : string)
| TimeoutError
| RegistryRootChangedError (cause : exn)
| ValidatorIndexChangedError (cause : exn)
| KeystoreException (msg : string)
| RuntimeError (msg : string) (cause : option exn)
| NotEnoughOracleApprovalsError (votes : nat) (threshold : Z)
| KeyError (key : string)
| TypeError (msg : string)
| ValueError (msg : string)
| OSError (path : string).

Inductive result (A : Type) : Type :=
| Return (a : A)
| Raise (e : exn).
Arguments Return {A} a.
Arguments Raise {A} e.

Definition is_Return {A} (r : result A) : bool :=
  match r with Return _ => true | Raise _ => false end.

Definition result_bind {A B} (r : result A) (f : A → result B) : result B :=
  match r with Return a => f a | Raise e => Raise e end.

(** [isinstance(e, (ClientError, asyncio.TimeoutError))].

    Modelled from the spec: src/validators/exceptions.py is not among the
    sources; the stale-round errors [RegistryRootChangedError] and
    [ValidatorIndexChangedError] are classes of their own, outside the aiohttp
    hierarchy (spec 4.3 and 7: they abort the remaining replica attempts, and
    the failure kinds are {Transient, StaleRegistryRoot, StaleValidatorIndex}). *)
Definition is_aiohttp_error (e : exn) : bool :=
  match e with
  | ClientError _ | TimeoutError => true
  | _ => false
  end.

(** [d[key]] on a dict. *)
Fixpoint dict_get (d : dict) (key : string) : option pyval :=
  match d with
  | [] => None
  | (k, v) :: d' => if String.eqb k key then Some v else dict_get d' key
  end.

Definition dict_getitem (d : dict) (key : string) : result pyval :=
  match dict_get d key with
  | Some v => Return v
  | None => Raise (KeyError key)
  end.

(** [v[key]] on an arbitrary value, as [data['ipfs_hash']] on parsed JSON:
    only a dict can be indexed by a string. *)
Definition getitem (v : pyval) (key : string) : result pyval :=
  match v with
  | PDict d => dict_getitem d key
  | _ => Raise (TypeError "indices must be integers")
  end.

(** [s != v] and [i != v] of Python for a string or an integer on the left. *)
Definition py_ne_str (s : string) (v : pyval) : bool :=
  match v with PStr t => negb (String.eqb s t) | _ => true end.

Definition py_ne_int (i : Z) (v : pyval) : bool :=
  match v with PInt j => negb (Z.eqb i j) | _ => true end.

(** ** Strings *)

Definition startswith (s p : string) : bool := String.prefix p s.

Definition endswith (s p : string) : bool :=
  let n := String.length s in
  let m := String.length p in
  if (m <=? n)%nat then String.eqb (String.substring (n - m) m s) p else false.

(** [s.replace(old, new)] for a non-empty [old]: every occurrence, scanning
    from the left, occurrences do not overlap.  [skip] counts the characters
    of a matched occurrence still to be dropped. *)
Fixpoint replace_from (skip : nat) (old new s : string) : string :=
  match s with
  | EmptyString => EmptyString
  | String c s' =>
      match skip with
      | S k => replace_from k old new s'
      | O =>
          if String.prefix old s
          then new +:+ replace_from (String.length old - 1) old new s'
          else String c (replace_from 0 old new s')
      end
  end.

Definition str_replace (s old new : string) : string := replace_from 0 old new s.

(** [s.strip()] removes the white space of [str.isspace] at both ends.  In
    UTF-8 a white space character takes one, two or three bytes:
    U+0009 to U+000D and U+001C to U+0020 are the bytes 09-0D and 1C-20;
    U+0085 and U+00A0 are C2 85 and C2 A0; U+1680 is E1 9A 80;
    U+2000 to U+200A, U+2028, U+2029 and U+202F are E2 80 followed by 80-8A,
    A8, A9 and AF; U+205F is E2 81 9F; U+3000 is E3 80 80. *)
Definition is_space (c : ascii) : bool :=
  let n := nat_of_ascii c in
  ((9 <=? n) && (n <=? 13) || (28 <=? n) && (n <=? 32))%nat.

Definition is_space2 (c1 c2 : ascii) : bool :=
  let n2 := nat_of_ascii c2 in
  ((nat_of_ascii c1 =? 194) && ((n2 =? 133) || (n2 =? 160)))%nat.

Definition is_space3 (c1 c2 c3 : ascii) : bool :=
  let n1 := nat_of_ascii c1 in
  let n2 := nat_of_ascii c2 in
  let n3 := nat_of_ascii c3 in
  ((n1 =? 225) && (n2 =? 154) && (n3 =? 128)
   || (n1 =? 226) && (n2 =? 128)
      && ((128 <=? n3) && (n3 <=? 138) || (n3 =? 168) || (n3 =? 169) || (n3 =? 175))
   || (n1 =? 226) && (n2 =? 129) && (n3 =? 159)
   || (n1 =? 227) && (n2 =? 128) && (n3 =? 128))%nat.

(** The number of bytes of the white space character that the bytes start
    with, 0 when they start with none; and the same for the character they
    end with, on the bytes in reverse. *)
Definition space_width (l : list ascii) : nat :=
  match l with
  | c1 :: l1 =>
      if is_space c1 then 1%nat
      else match l1 with
           | c2 :: l2 =>
               if is_space2 c1 c2 then 2%nat
               else match l2 with
                    | c3 :: _ => if is_space3 c1 c2 c3 then 3%nat else 0%nat
                    | [] => 0%nat
                    end
           | [] => 0%nat
           end
  | [] => 0%nat
  end.

Definition space_width_end (reversed : list ascii) : nat :=
  match reversed with
  | c1 :: l1 =>
      if is_space c1 then 1%nat
      else match l1 with
           | c2 :: l2 =>
               if is_space2 c2 c1 then 2%nat
               else match l2 with
                    | c3 :: _ => if is_space3 c3 c2 c1 then 3%nat else 0%nat
                    | [] => 0%nat
                    end
           | [] => 0%nat
           end
  | [] => 0%nat
  end.

(** Characters are dropped while there is one of positive width at the head;
    [fuel] bounds the number of characters, the length of the text is enough. *)
Fixpoint drop_spaces (width : list ascii → nat) (fuel : nat) (l : list ascii) : list ascii :=
  match fuel with
  | O => l
  | S fuel' =>
      match width l with
      | O => l
      | S k => drop_spaces width fuel' (drop (S k) l)
      end
  end.

Definition lstrip (l : list ascii) : list ascii := drop_spaces space_width (length l) l.

Definition rstrip (l : list ascii) : list ascii :=
  reverse (drop_spaces space_width_end (length l) (reverse l)).

Definition strip (s : string) : string :=
  string_of_list_ascii (rstrip (lstrip (list_ascii_of_string s))).

(** [eth_utils.add_0x_prefix]: a value that already starts with [0x] or [0X]
    is returned as it is; a value that is not text is refused. *)
Definition is_0x_prefixed (s : string) : bool :=
  String.prefix "0x" s || String.prefix "0X" s.

Definition add_0x_prefix (v : pyval) : result string :=
  match v with
  | PStr s => Return (if is_0x_prefixed s then s else "0x" +:+ s)
  | _ => Raise (TypeError "is_0x_prefixed requires text typed arguments")
  end.

(** [Web3.to_hex] of a byte string: [0x] and two lower-case digits per byte. *)
Definition hex_digit (n : N) : ascii :=
  match String.get (N.to_nat n) "0123456789abcdef" with
  | Some c => c
  | None => "0"%char
  end.

Definition byte_hex (b : byte) : string :=
  let n := Byte.to_N b in
  String (hex_digit (n / 16)) (String (hex_digit (n mod 16)) EmptyString).

Definition to_hex (bs : bytes) : string :=
  "0x" +:+ String.concat "" (map byte_hex bs).

(** ** The approval client and its world

    The client talks to the oracles' replicas over HTTP, to the chain (registry
    root, latest validator public keys), to the local validators database and
    to the [random] module.  These are external collaborators: their answers
    come from a world that each call may change.  Every call and its answer,
    and every log record at info level or above, is emitted as an event;
    debug records are left out. *)

Record Response : Type := {
  status : Z;
  (** what [await response.json()] gives: the parsed body, or the exception *)
  json : result pyval;
}.

Record OracleApproval : Type := {
  ipfs_hash : pyval;
  signature : bytes;
  deadline : pyval;
}.

Inductive event : Type :=
| EvPost (endpoint : string) (reply : result Response)
| EvRegistryRoot (reply : result bytes)
| EvPublicKeys (reply : result (list string))
| EvNextIndex (reply : result Z)
| LogBadRequest (endpoint : string) (body : pyval)
| LogEndpointFailed (e : exn) (endpoint : string)
| LogOracleFailed (address : string) (e : exn)
| LogApprovals (request_deadline request_index : Z) (received total : nat)
| LogFailedEndpoints (failed_endpoints : list string).

Class Externals (World : Type) : Type := {
  (** [session.post(url=endpoint, json=payload)] entered as a context manager *)
  session_post : string → dict → World → result Response * World;
  (** [validators_registry_contract.get_registry_root()] *)
  get_registry_root : World → result bytes * World;
  get_latest_network_validator_public_keys : World → result (list string) * World;
  (** [NetworkValidatorCrud().get_next_validator_index(keys)] *)
  get_next_validator_index : list string → World → result Z * World;
  (** the draw [randbelow(n)] of the [random] module, in [range(n)] *)
  randbelow : nat → World → nat * World;
  randbelow_lt : ∀ n w, (0 < n)%nat → ((randbelow n w).1 < n)%nat;
  (** [Web3.to_bytes(hexstr=v)] *)
  Web3_to_bytes : pyval → result bytes;
}.

Definition M (World A : Type) : Type := World → result A * World * list event.

Section Client.
Context {World : Type} {ext : Externals World}.

Definition ret {A} (a : A) : M World A := λ w, (Return a, w, []).

Definition raise {A} (e : exn) : M World A := λ w, (Raise e, w, []).

Definition lift {A} (r : result A) : M World A := λ w, (r, w, []).

Definition bind {A B} (m : M World A) (f : A → M World B) : M World B :=
  λ w, match m w with
       | (Return a, w1, t1) => let '(r, w2, t2) := f a w1 in (r, w2, t1 ++ t2)
       | (Raise e, w1, t1) => (Raise e, w1, t1)
       end.

(** [try: body  except catches as e: handler e] *)
Definition try_except {A} (body : M World A) (catches : exn → bool)
    (handler : exn → M World A) : M World A :=
  λ w, match body w with
       | (Return a, w1, t1) => (Return a, w1, t1)
       | (Raise e, w1, t1) =>
           if catches e
           then let '(r, w2, t2) := handler e w1 in (r, w2, t1 ++ t2)
           else (Raise e, w1, t1)
       end.

Definition log (ev : event) : M World unit := λ w, (Return (), w, [ev]).

(** An external call, recorded with its answer. *)
Definition call {A} (f : World → result A * World) (ev : result A → event) : M World A :=
  λ w, let '(r, w1) := f w in (r, w1, [ev r]).
End Client.

Notation "'do' x <- m ; k" := (bind m (λ x, k))
  (at level 10, x name, m at level 100, k at level 200).
Notation "'do_' m ; k" := (bind m (λ _, k))
  (at level 10, m at level 100, k at level 200).

Section Client.
Context {World : Type} {ext : Externals World}.

(** [response.raise_for_status()] of aiohttp: refused from status 400 on. *)
Definition raise_for_status (response : Response) : result unit :=
  if 400 <=? status response then Raise (ClientError "ClientResponseError") else Return ().

(** The body of the [async with session.post(...)] block, lines 123-127. *)
Definition read_response (endpoint : string) (response : Response) : M World pyval :=
  do_ (if status response =? 400
       then do body <- lift (json response); log (LogBadRequest endpoint body)
       else ret ());
  do_ lift (raise_for_status response);
  lift (json response).

(** The failure classification of lines 129-138. *)
Definition classify_failure (payload : dict) (e : exn) : M World pyval :=
  do registry_root <- call get_registry_root EvRegistryRoot;
  do validators_root <- lift (dict_getitem payload "validators_root");
  if py_ne_str (to_hex registry_root) validators_root
  then raise (RegistryRootChangedError e)
  else
    do latest_public_keys <- call get_latest_network_validator_public_keys EvPublicKeys;
    do validator_index <- call (get_next_validator_index latest_public_keys) EvNextIndex;
    do request_index <- lift (dict_getitem payload "validator_index");
    if py_ne_int validator_index request_index
    then raise (ValidatorIndexChangedError e)
    else raise e.

(** Lines 140-144. *)
Definition make_approval (data : pyval) : result OracleApproval :=
  result_bind (getitem data "ipfs_hash") (λ ipfs,
  result_bind (getitem data "signature") (λ sig,
  result_bind (Web3_to_bytes sig) (λ sig_bytes,
  result_bind (getitem data "deadline") (λ dl,
  Return {| ipfs_hash := ipfs; signature := sig_bytes; deadline := dl |})))).

Definition send_approval_request (endpoint : string) (payload : dict) : M World OracleApproval :=
  do data <- try_except
               (do response <- call (session_post endpoint payload) (EvPost endpoint);
                read_response endpoint response)
               is_aiohttp_error
               (classify_failure payload);
  lift (make_approval data).
End Client.

Section Replicas.
Context {World : Type} {ext : Externals World}.

(** [random.sample(population, k)] with [k = len(population)]: the standard
    library then always takes its pool branch,
    [for i in range(k): j = randbelow(n - i); result[i] = pool[j];
     pool[j] = pool[n - i - 1]].  [m] is [n - i]. *)
Fixpoint sample_loop (m : nat) (pool : list string) (w : World) : list string * World :=
  match m with
  | O => ([], w)
  | S m' =>
      let '(j, w1) := randbelow m w in
      match pool !! j, pool !! m' with
      | Some x, Some y =>
          let '(rest, w2) := sample_loop m' (<[j := y]> pool) w1 in (x :: rest, w2)
      | _, _ => ([], w1)
      end
  end.

Definition random_sample (population : list string) : M World (list string) :=
  λ w, let '(l, w1) := sample_loop (length population) population w in (Return l, w1, []).

(** The [for endpoint in replicas] loop of lines 104-114, with the statements
    after it; [last_error] is the loop's variable. *)
Fixpoint for_endpoints (payload : dict) (replicas : list string) (last_error : option exn)
    : M World OracleApproval :=
  match replicas with
  | [] =>
      match last_error with
      | Some e => raise e
      | None => raise (RuntimeError "Failed to get response from replicas" None)
      end
  | endpoint :: rest =>
      try_except (send_approval_request endpoint payload) is_aiohttp_error
        (λ e, do_ log (LogEndpointFailed e endpoint);
              for_endpoints payload rest (Some e))
  end.

(** The coroutine of lines 96-114 as written, before the decorator wraps it. *)
Definition send_approval_request_to_replicas_wrapped (replicas : list string) (payload : dict)
    : M World OracleApproval :=
  do shuffled <- random_sample replicas;
  for_endpoints payload shuffled None.

(** Modelled from the spec: [sw_utils.decorators.retry_aiohttp_errors], the
    bounded retry/backoff policy, is an external collaborator.  It invokes
    the wrapped coroutine again while that raises an aiohttp error and the
    policy's time budget lasts, and lets any other outcome through.  Time is
    not modelled: [retries] is the number of further invocations the budget
    [DEFAULT_RETRY_TIME] still allows. *)
Fixpoint retry_aiohttp_errors {A} (retries : nat) (f : M World A) : M World A :=
  match retries with
  | O => f
  | S n => try_except f is_aiohttp_error (λ _, retry_aiohttp_errors n f)
  end.

Definition send_approval_request_to_replicas (retries : nat) (replicas : list string)
    (payload : dict) : M World OracleApproval :=
  retry_aiohttp_errors retries (send_approval_request_to_replicas_wrapped replicas payload).
End Replicas.

(** ** Fan-out and aggregation *)

Record Oracles : Type := {
  addresses : list string;
  endpoints : list (list string);
  validators_threshold : Z;
}.

Record ApprovalRequest : Type := {
  request_deadline : Z;
  validator_index : Z;
  validators_root : string;
  (** the fields the module never reads *)
  other_fields : dict;
}.

(** [dataclasses.asdict(request)] *)
Definition asdict (request : ApprovalRequest) : dict :=
  ("deadline", PInt (request_deadline request))
  :: ("validator_index", PInt (validator_index request))
  :: ("validators_root", PStr (validators_root request))
  :: other_fields request.

(** Lines 61-75: the pass over [zip(addresses, endpoints, results)], with the
    log record of each failed oracle. *)
Fixpoint collect (rows : list (string * list string * result OracleApproval))
    (approvals : gmap string OracleApproval) (failed_endpoints : list string)
    : gmap string OracleApproval * list string * list event :=
  match rows with
  | [] => (approvals, failed_endpoints, [])
  | (address, replicas, Raise e) :: rows' =>
      let '(a, f, t) := collect rows' approvals (failed_endpoints ++ replicas) in
      (a, f, LogOracleFailed address e :: t)
  | (address, _, Return approval) :: rows' =>
      collect rows' (<[address := approval]> approvals) failed_endpoints
  end.

Section Approvals.
Context {World : Type} {ext : Externals World}.
Context {OraclesApproval : Type}.
(** [src.common.utils.process_oracles_approvals], the combination rule. *)
Variable process_oracles_approvals : gmap string OracleApproval → Z → result OraclesApproval.

(** [asyncio.gather] with [return_exceptions=True]: every task runs to its
    own outcome, an exception is a result like any other.  The event loop
    interleaves the tasks at their awaits; here they run one after the
    other, which is the schedule where each task finishes before the next
    starts. *)
Fixpoint gather {A} (tasks : list (M World A)) (w : World)
    : list (result A) * World * list event :=
  match tasks with
  | [] => ([], w, [])
  | task :: rest =>
      let '(r, w1, t1) := task w in
      let '(rs, w2, t2) := gather rest w1 in
      (r :: rs, w2, t1 ++ t2)
  end.

(** Lines 61-91: what [send_approval_requests] does with the gathered results. *)
Definition aggregate (oracles : Oracles) (request : ApprovalRequest)
    (results : list (result OracleApproval)) : result OraclesApproval * list event :=
  let '(approvals, failed_endpoints, warnings) :=
    collect (zip (zip (addresses oracles) (endpoints oracles)) results) ∅ [] in
  (process_oracles_approvals approvals (validators_threshold oracles),
   warnings
   ++ [LogApprovals (request_deadline request) (validator_index request)
         (size approvals) (length (endpoints oracles))]
   ++ match failed_endpoints with
      | [] => []
      | _ :: _ => [LogFailedEndpoints failed_endpoints]
      end).

Definition send_approval_requests (retries : nat) (oracles : Oracles) (request : ApprovalRequest)
    : M World OraclesApproval :=
  λ w,
    let payload := asdict request in
    let endpoints := zip (addresses oracles) (endpoints oracles) in
    let '(results, w1, t1) :=
      gather (map (λ '(address, replicas),
                     send_approval_request_to_replicas retries replicas payload) endpoints) w in
    let '(r, t2) := aggregate oracles request results in
    (r, w1, t1 ++ t2).
End Approvals.

(** ** Keystores *)

Record KeystoreFile : Type := {
  name : string;
  password : string;
}.

Record Settings : Type := {
  keystores_dir : string;
  keystores_password_dir : string;
  keystores_password_file : string;
  pool_size : nat;
}.

(** The part of the file system the loader reads.  Whether a path is a
    regular file and whether it can be opened and read as text are two
    observations: a regular file may be unreadable or hold bytes that are not
    UTF-8, and what is not a regular file may be readable. *)
Record FileSystem : Type := {
  (** [os.listdir(path)]: the names of the entries, in the order it gives them *)
  listdir : string → result (list string);
  (** [os.path.isfile(path)] *)
  isfile : string → bool;
  (** [open(path, 'r', encoding='utf-8')] and [read()] of the whole file: the
      text, or the exception that [open] or [read] raises *)
  file_text : string → result string;
}.

(** [dir / name] of [pathlib]; the names joined here hold no separator. *)
Definition path_join (dir name : string) : string := dir +:+ "/" +:+ name.

Definition _load_keystores_password (fs : FileSystem) (password_path : string) : result string :=
  result_bind (file_text fs password_path) (λ text, Return (strip text)).

Definition is_keystore_name (fs : FileSystem) (settings : Settings) (f : string) : bool :=
  isfile fs (path_join (keystores_dir settings) f)
  && startswith f "keystore" && endswith f ".json".

Definition password_file_of (fs : FileSystem) (settings : Settings) (f : string) : string :=
  let password_file := path_join (keystores_password_dir settings) (str_replace f ".json" ".txt") in
  if isfile fs password_file then password_file else keystores_password_file settings.

(** The loop of lines 153-162 over the directory listing. *)
Fixpoint list_keystore_loop (fs : FileSystem) (settings : Settings) (names : list string)
    : result (list KeystoreFile) :=
  match names with
  | [] => Return []
  | f :: rest =>
      if negb (is_keystore_name fs settings f)
      then list_keystore_loop fs settings rest
      else
        result_bind (_load_keystores_password fs (password_file_of fs settings f)) (λ password,
        result_bind (list_keystore_loop fs settings rest) (λ res,
        Return ({| name := f; password := password |} :: res)))
  end.

Definition list_keystore_files (fs : FileSystem) (settings : Settings) : result (list KeystoreFile) :=
  result_bind (listdir fs (keystores_dir settings)) (list_keystore_loop fs settings).

(** The keystore container and the BLS library. *)
Class KeystoreCrypto : Type := {
  ScryptKeystore : Type;
  (** [ScryptKeystore.from_file] on the text of the file it reads; [None] when
      it raises *)
  from_text : string → option ScryptKeystore;
  (** [keystore.decrypt(password)]; [None] when it raises *)
  decrypt : ScryptKeystore → string → option bytes;
  (** [bls.SkToPk] *)
  SkToPk : bytes → result bytes;
}.

Definition dquote : string := String (ascii_of_nat 34) EmptyString.

Section Keystores.
Context {crypto : KeystoreCrypto}.

Definition _process_keystore_file (fs : FileSystem) (keystore_file : KeystoreFile)
    (keystore_path : string) : result (string * bytes) :=
  let file_name := name keystore_file in
  let keystores_password := password keystore_file in
  let file_path := path_join keystore_path file_name in
  match match file_text fs file_path with
        | Return text => from_text text
        | Raise _ => None
        end with
  | None =>
      Raise (KeystoreException ("Invalid keystore format in file " +:+ dquote +:+ file_name +:+ dquote))
  | Some keystore =>
      match decrypt keystore keystores_password with
      | None =>
          Raise (KeystoreException ("Invalid password for keystore " +:+ dquote +:+ file_name +:+ dquote))
      | Some private_key =>
          result_bind (SkToPk private_key) (λ pk, Return (to_hex pk, private_key))
      end
  end.

(** [Pool(processes=n)] refuses a number of processes below one. *)
Definition Pool (processes : nat) : result unit :=
  if (processes <? 1)%nat then Raise (ValueError "Number of processes must be at least 1")
  else Return ().

(** [pool.apply_async] over the units, lines 177-184.  A unit that fails has
    [_stop_pool] close the pool; a submission made after that raises.  When
    the callback runs is a matter of timing: [closing i] tells whether the
    callback of a unit that failed among the first [i] has closed the pool
    by the time unit [i] is submitted. *)
Fixpoint apply_async_all {A} (closing : nat → bool) (i : nat) (failed : bool)
    (units : list (result A)) : result (list (result A)) :=
  match units with
  | [] => Return []
  | u :: rest =>
      if failed && closing i then Raise (ValueError "Pool not running")
      else result_bind (apply_async_all closing (S i) (failed || negb (is_Return u)) rest)
             (λ rs, Return (u :: rs))
  end.

(** The loop of lines 185-192 over the results. *)
Fixpoint collect_keystores (results : list (result (string * bytes)))
    (keystores : gmap string bytes) : result (gmap string bytes) :=
  match results with
  | [] => Return keystores
  | Return (pub_key, priv_key) :: rest =>
      collect_keystores rest (<[pub_key := priv_key]> keystores)
  | Raise (KeystoreException msg) :: _ =>
      Raise (RuntimeError "Failed to load keystores" (Some (KeystoreException msg)))
  | Raise e :: _ => Raise e
  end.

Definition load_keystores (fs : FileSystem) (settings : Settings) (closing : nat → bool)
    : result (gmap string bytes) :=
  result_bind (list_keystore_files fs settings) (λ keystore_files,
  result_bind (Pool (pool_size settings)) (λ _,
  result_bind (apply_async_all closing 0 false
                 (map (λ keystore_file,
                         _process_keystore_file fs keystore_file (keystores_dir settings))
                      keystore_files)) (λ results,
  collect_keystores results ∅))).
End Keystores.

(** ** The validators tree *)

Record Validator : Type := {
  deposit_data_index : Z;
  public_key : string;
  validator_signature : string;
}.

Class TreeCollaborators : Type := {
  keccak : bytes → bytes;
  (** [eth_abi.encode(['bytes', 'uint256'], leaf)] *)
  abi_encode : bytes → Z → bytes;
  (** [sw_utils.get_eth1_withdrawal_credentials] *)
  get_eth1_withdrawal_credentials : string → bytes;
  (** Modelled from the spec: [src.validators.signing.common.encode_tx_validator]
      is not among the sources; it is the deterministic encoding of a validator
      under the withdrawal credentials (spec 4.2), and may refuse a record. *)
  encode_tx_validator : bytes → Validator → result bytes;
}.

(** Byte strings compare as Python compares [bytes]: lexicographically. *)
Fixpoint bytes_leb (a b : bytes) : bool :=
  match a, b with
  | [], _ => true
  | _ :: _, [] => false
  | x :: a', y :: b' =>
      if (Byte.to_N x <? Byte.to_N y)%N then true
      else if (Byte.to_N y <? Byte.to_N x)%N then false
      else bytes_leb a' b'
  end.

Record HashedValue : Type := {
  hv_value : bytes * Z;
  hv_index : nat;
  hv_hash : bytes;
}.

Record StandardMerkleTree : Type := {
  tree : list bytes;
  (** each leaf value with its position in [tree] *)
  values : list (bytes * Z * nat);
}.

Section StandardTree.
Context {collab : TreeCollaborators}.

Definition leaf_hash (leaf : bytes * Z) : bytes :=
  keccak (keccak (abi_encode leaf.1 leaf.2)).

Definition hash_pair (a b : bytes) : bytes :=
  keccak (if bytes_leb a b then a ++ b else b ++ a).

(** [sorted(hashed_values, key=hash)]: a stable sort. *)
Fixpoint insert_by_hash (x : HashedValue) (l : list HashedValue) : list HashedValue :=
  match l with
  | [] => [x]
  | y :: l' =>
      if bytes_leb (hv_hash x) (hv_hash y) then x :: l else y :: insert_by_hash x l'
  end.

Definition sorted_by_hash (l : list HashedValue) : list HashedValue :=
  foldr insert_by_hash [] l.

(** [for i in range(n - 2, -1, -1): tree[i] = hash_pair(tree[2i+1], tree[2i+2])];
    [k] is [i + 1]. *)
Fixpoint fill_nodes (k : nat) (nodes : list bytes) : list bytes :=
  match k with
  | O => nodes
  | S i =>
      fill_nodes i
        (<[i := hash_pair (nodes !!! (2 * i + 1)%nat) (nodes !!! (2 * i + 2)%nat)]> nodes)
  end.

Definition make_merkle_tree (leaves : list bytes) : result (list bytes) :=
  match leaves with
  | [] => Raise (ValueError "Expected non-zero number of leaves")
  | _ :: _ =>
      let n := length leaves in
      Return (fill_nodes (n - 1) (replicate (n - 1) [] ++ reverse leaves))
  end.

Definition StandardMerkleTree_of (leaves : list (bytes * Z)) : result StandardMerkleTree :=
  let hashed_values :=
    imap (λ index value, {| hv_value := value; hv_index := index; hv_hash := leaf_hash value |})
         leaves in
  let sorted_hashed_values := sorted_by_hash hashed_values in
  result_bind (make_merkle_tree (map hv_hash sorted_hashed_values)) (λ nodes,
  let indexed_values :=
    foldl (λ acc '(leaf_index, hashed_value),
             alter (λ '(value, _), (value, (length nodes - leaf_index - 1)%nat))
                   (hv_index hashed_value) acc)
          (map (λ value, (value, O)) leaves)
          (zip (seq 0 (length sorted_hashed_values)) sorted_hashed_values) in
  Return {| tree := nodes; values := indexed_values |}).

(** [tree.root], as bytes. *)
Definition root (t : StandardMerkleTree) : bytes := tree t !!! O.

(** [while index > 0: proof.append(tree[sibling(index)]); index = parent(index)] *)
Fixpoint proof_from (fuel index : nat) (nodes : list bytes) : list bytes :=
  match fuel with
  | O => []
  | S fuel' =>
      if (index =? 0)%nat then []
      else
        let sibling := if Nat.even index then (index - 1)%nat else (index + 1)%nat in
        nodes !!! sibling :: proof_from fuel' ((index - 1) / 2)%nat nodes
  end.

(** [tree.get_proof(i)] for the [i]-th leaf value, as bytes, without the
    library's own check of the proof against the root. *)
Definition get_proof (t : StandardMerkleTree) (i : nat) : result (list bytes) :=
  match values t !! i with
  | Some (_, tree_index) => Return (proof_from tree_index tree_index (tree t))
  | None => Raise (ValueError "Index out of bounds")
  end.

(** The loop of lines 214-221; [i] is the position [enumerate] has reached. *)
Fixpoint validators_loop (credentials : bytes) (i : nat) (deposit_data : list dict)
    : result (list (bytes * Z) * list Validator) :=
  match deposit_data with
  | [] => Return ([], [])
  | data :: rest =>
      result_bind (dict_getitem data "pubkey") (λ pubkey,
      result_bind (add_0x_prefix pubkey) (λ pk,
      result_bind (dict_getitem data "signature") (λ sig,
      result_bind (add_0x_prefix sig) (λ sg,
      let validator :=
        {| deposit_data_index := Z.of_nat i; public_key := pk; validator_signature := sg |} in
      result_bind (encode_tx_validator credentials validator) (λ leaf,
      result_bind (validators_loop credentials (S i) rest) (λ '(leaves, validators),
      Return ((leaf, Z.of_nat i) :: leaves, validator :: validators)))))))
  end.

Definition generate_validators_tree (vault : string) (deposit_data : list dict)
    : result (StandardMerkleTree * list Validator) :=
  let credentials := get_eth1_withdrawal_credentials vault in
  result_bind (validators_loop credentials 0 deposit_data) (λ '(leaves, validators),
  result_bind (StandardMerkleTree_of leaves) (λ t, Return (t, validators))).
End StandardTree.

(** Two dicts are equal in Python when they bind the same keys to the same
    values, whatever the order the keys were inserted in. *)
Definition dict_equiv (d1 d2 : dict) : Prop := ∀ key, dict_get d1 key = dict_get d2 key.

(** ** Reading a trace *)

(** The endpoints posted to, in order. *)
Definition posts (t : list event) : list string :=
  omap (λ ev, match ev with EvPost endpoint _ => Some endpoint | _ => None end) t.

(** The failed attempts the replicas loop has logged, in order. *)
Definition failures (t : list event) : list (exn * string) :=
  omap (λ ev, match ev with LogEndpointFailed e endpoint => Some (e, endpoint) | _ => None end) t.

(** The error the replicas loop ends with when every attempt has been logged
    as failed: the last one logged, or the one it started with. *)
Definition closing_error (last_error : option exn) (failed : list (exn * string)) : exn :=
  match last failed with
  | Some (e, _) => e
  | None => default (RuntimeError "Failed to get response from replicas" None) last_error
  end.

(** What the [try] block of [send_approval_request] makes of a reply, the log
    record of the 400 branch apart. *)
Definition response_data (response : Response) : result pyval :=
  result_bind (if status response =? 400
               then result_bind (json response) (λ _, Return ())
               else Return ()) (λ _,
  result_bind (raise_for_status response) (λ _,
  json response)).

Definition try_block_result (reply : result Response) : result pyval :=
  result_bind reply response_data.

Section Finals.
Context {World : Type} {ext : Externals World}.

(** The approval a reply amounts to, if it is a well-formed one. *)
Definition approval_of_reply (reply : result Response) : option OracleApproval :=
  match result_bind (try_block_result reply) make_approval with
  | Return a => Some a
  | Raise _ => None
  end.

(** The answers that end an oracle's task: a well-formed approval, a live
    registry root that differs from the request's, a next validator index
    that differs from the request's. *)
Definition is_final (payload : dict) (ev : event) : bool :=
  match ev with
  | EvPost _ reply => bool_decide (is_Some (approval_of_reply reply))
  | EvRegistryRoot (Return registry_root) =>
      match dict_get payload "validators_root" with
      | Some v => py_ne_str (to_hex registry_root) v
      | None => false
      end
  | EvNextIndex (Return index) =>
      match dict_get payload "validator_index" with
      | Some v => py_ne_int index v
      | None => false
      end
  | _ => false
  end.

(** The outcome each of them stands for. *)
Definition final_result (ev : event) (r : result OracleApproval) : Prop :=
  match ev with
  | EvPost _ reply => ∃ a, approval_of_reply reply = Some a ∧ r = Return a
  | EvRegistryRoot _ =>
      ∃ e, is_aiohttp_error e = true ∧ r = Raise (RegistryRootChangedError e)
  | EvNextIndex _ =>
      ∃ e, is_aiohttp_error e = true ∧ r = Raise (ValidatorIndexChangedError e)
  | _ => False
  end.
End Finals.

(** Modelled from the spec: [src.common.utils.process_oracles_approvals] is not
    among the sources.  Spec 4.3, step 4: the approvals are handed over with
    [validators_threshold]; threshold satisfied gives the aggregate, otherwise
    the whole operation fails (spec 8: [T - 1] approvals fail, [T] succeed).
    The aggregate is kept as the approvals it was made from. *)
Definition process_oracles_approvals_spec (approvals : gmap string OracleApproval)
    (threshold : Z) : result (gmap string OracleApproval) :=
  if threshold <=? Z.of_nat (size approvals)
  then Return approvals
  else Raise (NotEnoughOracleApprovalsError (size approvals) threshold).

(** The tasks of a batch run from a world, each from the world the one before
    it has left: the outcome of each task in the order of the tasks, the
    world they leave and the events they emit. *)
Inductive task_outcomes {World A : Type}
    : list (M World A) → World → list (result A) → World → list event → Prop :=
| outcomes_nil w : task_outcomes [] w [] w []
| outcomes_cons task tasks w r w1 t1 results w2 t2 :
    task w = (r, w1, t1) →
    task_outcomes tasks w1 results w2 t2 →
    task_outcomes (task :: tasks) w (r :: results) w2 (t1 ++ t2).

(** The stale-round errors. *)
Definition is_stale_round (e : exn) : bool :=
  match e with
  | RegistryRootChangedError _ | ValidatorIndexChangedError _ => true
  | _ => false
  end.

(** Two outcomes of an oracle's task that differ at most in the exception. *)
Definition same_success (r r' : result OracleApproval) : Prop :=
  match r, r' with
  | Return a, Return a' => a = a'
  | Raise _, Raise _ => True
  | _, _ => False
  end.

(** ** Scenarios

    Concrete worlds on which the model runs; their answers never change. *)

Fixpoint assoc {A} (l : list (string * A)) (key : string) : option A :=
  match l with
  | [] => None
  | (k, v) :: l' => if String.eqb k key then Some v else assoc l' key
  end.

Definition hex_value (c : ascii) : option N :=
  let n := N_of_ascii c in
  if (48 <=? n)%N && (n <=? 57)%N then Some (n - 48)%N
  else if (97 <=? n)%N && (n <=? 102)%N then Some (n - 87)%N
  else if (65 <=? n)%N && (n <=? 70)%N then Some (n - 55)%N
  else None.

Fixpoint decode_pairs (s : string) : option bytes :=
  match s with
  | EmptyString => Some []
  | String _ EmptyString => None
  | String a (String b s') =>
      hi ← hex_value a; lo ← hex_value b; x ← Byte.of_N (16 * hi + lo);
      rest ← decode_pairs s'; Some (x :: rest)
  end.

(** [eth_utils.to_bytes(hexstr=v)]: the prefix [0x] or [0X] is optional, an
    odd number of digits is padded with a zero in front, other characters
    than hexadecimal digits are refused, and so is a value that is not text. *)
Definition remove_0x_prefix (s : string) : string :=
  if is_0x_prefixed s then String.substring 2 (String.length s - 2) s else s.

Definition hex_to_bytes (v : pyval) : result bytes :=
  match v with
  | PStr s =>
      let digits := remove_0x_prefix s in
      match decode_pairs (if Nat.odd (String.length s) then "0" +:+ digits else digits) with
      | Some bs => Return bs
      | None => Raise (ValueError "Non-hexadecimal digit found")
      end
  | _ => Raise (TypeError "expected a hex string")
  end.

(** A world in which each endpoint always gives the same reply (a timeout when
    none is listed), the chain always reports the same registry root and next
    validator index, and the random generator always draws 0. *)
Definition static_world (replies : list (string * result Response)) (registry_root : bytes)
    (next_index : Z) : Externals unit :=
  {| session_post endpoint _ w := (default (Raise TimeoutError) (assoc replies endpoint), w);
     get_registry_root w := (Return registry_root, w);
     get_latest_network_validator_public_keys w := (Return [], w);
     get_next_validator_index _ w := (Return next_index, w);
     randbelow _ w := (O, w);
     randbelow_lt := λ n w H, H;
     Web3_to_bytes := hex_to_bytes |}.

Definition approval_body : pyval :=
  PDict [("ipfs_hash", PStr "QmHash"); ("signature", PStr "0x0a0b"); ("deadline", PInt 1700000000)].

Definition ok_reply : result Response := Return {| status := 200; json := Return approval_body |}.

Definition the_approval : OracleApproval :=
  {| ipfs_hash := PStr "QmHash"; signature := [x0a; x0b]%byte; deadline := PInt 1700000000 |}.

Definition the_request : ApprovalRequest :=
  {| request_deadline := 1700000000; validator_index := 7; validators_root := "0xaa";
     other_fields := [] |}.

Definition two_oracles : Oracles :=
  {| addresses := ["0xA"; "0xB"];
     endpoints := [["https://a1"]; ["https://b1"]];
     validators_threshold := 1 |}.

(** The chain has moved on: the live registry root is not the request's. *)
Definition stale_root_world : Externals unit :=
  static_world [("https://b1", ok_reply)] [xbb]%byte 7.

(** The registry root is the request's, the next validator index is not. *)
Definition stale_index_world : Externals unit :=
  static_world [("https://b1", ok_reply)] [xaa]%byte 8.

(** Nothing has changed on the chain; replica [a1] is down, [a2] and [a3] do
    not answer in time, [b1] answers. *)
Definition fresh_world : Externals unit :=
  static_world [("https://a1", Raise (ClientError "Cannot connect to host"));
                ("https://b1", ok_reply)] [xaa]%byte 7.

Definition newline : string := String (ascii_of_nat 10) EmptyString.

Definition bytes_of_string (s : string) : bytes := map byte_of_ascii (list_ascii_of_string s).

(** A file system with one directory; its files are regular files that can be
    read, every other path is missing. *)
Definition static_fs (dir : string) (names : list string) (files : list (string * string))
    : FileSystem :=
  {| listdir path := if String.eqb path dir then Return names else Raise (OSError path);
     isfile path := match assoc files path with Some _ => true | None => false end;
     file_text path :=
       match assoc files path with
       | Some text => Return text
       | None => Raise (OSError path)
       end |}.

(** The directory of spec 8: [keystore1.json] with its sidecar
    [keystore1.txt] holding [abc], [keystore2.json] without one, and the
    default password file holding [xyz]. *)
Definition scenario_settings : Settings :=
  {| keystores_dir := "/data/keystores";
     keystores_password_dir := "/data/keystores";
     keystores_password_file := "/data/keystores/password.txt";
     pool_size := 2 |}.

Definition scenario_fs : FileSystem :=
  static_fs "/data/keystores"
    ["keystore1.json"; "keystore1.txt"; "keystore2.json"; "password.txt"]
    [("/data/keystores/keystore1.json", "abc=key-one");
     ("/data/keystores/keystore1.txt", "abc" +:+ newline);
     ("/data/keystores/keystore2.json", "xyz=key-two");
     ("/data/keystores/password.txt", "xyz" +:+ newline)].

(** The same directory with a third keystore that is not a container. *)
Definition corrupted_fs : FileSystem :=
  static_fs "/data/keystores"
    ["keystore1.json"; "keystore1.txt"; "keystore2.json"; "keystore3.json"; "password.txt"]
    [("/data/keystores/keystore1.json", "abc=key-one");
     ("/data/keystores/keystore1.txt", "abc" +:+ newline);
     ("/data/keystores/keystore2.json", "xyz=key-two");
     ("/data/keystores/keystore3.json", "garbage");
     ("/data/keystores/password.txt", "xyz" +:+ newline)].

(** A stand-in for the container and the curve: a keystore is the text
    [password=key], it opens with its password, and the public key of a key
    is the key reversed. *)
Definition toy_crypto : KeystoreCrypto :=
  {| ScryptKeystore := string * string;
     from_text text :=
       match String.index 0 "=" text with
       | Some n => Some (String.substring 0 n text,
                         String.substring (S n) (String.length text - S n) text)
       | None => None
       end;
     decrypt keystore password :=
       if String.eqb keystore.1 password then Some (bytes_of_string keystore.2) else None;
     SkToPk private_key := Return (reverse private_key) |}.

(** A stand-in for the hash, the ABI encoding and the validator encoding. *)
Definition toy_digest (bs : bytes) : bytes :=
  let total := foldr (λ b acc, (Byte.to_N b + 31 * acc) mod 65521)%N 7%N bs in
  [default x00%byte (Byte.of_N (total mod 256)); default x00%byte (Byte.of_N (total / 256))].

Definition toy_collaborators : TreeCollaborators :=
  {| keccak := toy_digest;
     abi_encode leaf index := leaf ++ [default x00%byte (Byte.of_N (Z.to_N index mod 256))];
     get_eth1_withdrawal_credentials vault := x01%byte :: bytes_of_string vault;
     encode_tx_validator credentials validator :=
       Return (credentials ++ bytes_of_string (public_key validator)
                 ++ bytes_of_string (validator_signature validator)) |}.

Definition deposit_data_a : list dict :=
  [[("pubkey", PStr "0xaa01"); ("signature", PStr "bb01")];
   [("pubkey", PStr "aa02"); ("signature", PStr "0xbb02"); ("amount", PInt 32000000000)]].

(** The same records with their fields in another order. *)
Definition deposit_data_b : list dict :=
  [[("signature", PStr "bb01"); ("pubkey", PStr "0xaa01")];
   [("amount", PInt 32000000000); ("signature", PStr "0xbb02"); ("pubkey", PStr "aa02")]].

(** ** The shape of one attempt

    What a call of [send_approval_request] can return, and the trace it leaves,
    told by the answers it got rather than by the world that gave them. *)

(** The log record of the 400 branch: written when the body parses. *)
Definition bad_request_log (endpoint : string) (reply : result Response) : list event :=
  match reply with
  | Return response =>
      if status response =? 400
      then match json response with
           | Return body => [LogBadRequest endpoint body]
           | Raise _ => []
           end
      else []
  | Raise _ => []
  end.

(** The exception the handler of lines 129-138 ends in, for the caught [e]. *)
Inductive classified (payload : dict) (e : exn) : exn → list event → Prop :=
| cl_root_raises e' :
    classified payload e e' [EvRegistryRoot (Raise e')]
| cl_root_key registry_root :
    dict_get payload "validators_root" = None →
    classified payload e (KeyError "validators_root") [EvRegistryRoot (Return registry_root)]
| cl_root_changed registry_root v :
    dict_get payload "validators_root" = Some v →
    py_ne_str (to_hex registry_root) v = true →
    classified payload e (RegistryRootChangedError e) [EvRegistryRoot (Return registry_root)]
| cl_keys_raise registry_root v e' :
    dict_get payload "validators_root" = Some v →
    py_ne_str (to_hex registry_root) v = false →
    classified payload e e' [EvRegistryRoot (Return registry_root); EvPublicKeys (Raise e')]
| cl_index_raises registry_root v keys e' :
    dict_get payload "validators_root" = Some v →
    py_ne_str (to_hex registry_root) v = false →
    classified payload e e'
      [EvRegistryRoot (Return registry_root); EvPublicKeys (Return keys); EvNextIndex (Raise e')]
| cl_index_key registry_root v keys index :
    dict_get payload "validators_root" = Some v →
    py_ne_str (to_hex registry_root) v = false →
    dict_get payload "validator_index" = None →
    classified payload e (KeyError "validator_index")
      [EvRegistryRoot (Return registry_root); EvPublicKeys (Return keys); EvNextIndex (Return index)]
| cl_index_changed registry_root v keys index vi :
    dict_get payload "validators_root" = Some v →
    py_ne_str (to_hex registry_root) v = false →
    dict_get payload "validator_index" = Some vi →
    py_ne_int index vi = true →
    classified payload e (ValidatorIndexChangedError e)
      [EvRegistryRoot (Return registry_root); EvPublicKeys (Return keys); EvNextIndex (Return index)]
| cl_unchanged registry_root v keys index vi :
    dict_get payload "validators_root" = Some v →
    py_ne_str (to_hex registry_root) v = false →
    dict_get payload "validator_index" = Some vi →
    py_ne_int index vi = false →
    classified payload e e
      [EvRegistryRoot (Return registry_root); EvPublicKeys (Return keys); EvNextIndex (Return index)].

Section Attempted.
Context {World : Type} {ext : Externals World}.

Inductive attempted (payload : dict) (endpoint : string)
    : result OracleApproval → list event → Prop :=
| att_data reply data :
    try_block_result reply = Return data →
    attempted payload endpoint (make_approval data) [EvPost endpoint reply]
| att_other reply e :
    try_block_result reply = Raise e →
    is_aiohttp_error e = false →
    attempted payload endpoint (Raise e) [EvPost endpoint reply]
| att_classified reply e e' tl :
    try_block_result reply = Raise e →
    is_aiohttp_error e = true →
    classified payload e e' tl →
    attempted payload endpoint (Raise e')
      (EvPost endpoint reply :: bad_request_log endpoint reply ++ tl).
End Attempted.

(** ** Properties of a task's outcome and trace *)

Section TraceProperties.
Context {World : Type} {ext : Externals World}.

(** A final answer, wherever it occurs, is the last event of the trace and
    decides the outcome. *)
Definition finals_last (payload : dict) (r : result OracleApproval) (t : list event) : Prop :=
  ∀ t0 ev t1, t = t0 ++ ev :: t1 →
    is_final payload ev = true → t1 = [] ∧ final_result ev r.

(** The next validator index is derived only right after a registry root
    that equals the request's has been read, and the public keys after it. *)
Definition index_after_root (payload : dict) (t : list event) : Prop :=
  ∀ t0 reply t1, t = t0 ++ EvNextIndex reply :: t1 →
    ∃ t0' registry_root keys v,
      t0 = t0' ++ [EvRegistryRoot (Return registry_root); EvPublicKeys (Return keys)]
      ∧ dict_get payload "validators_root" = Some v
      ∧ py_ne_str (to_hex registry_root) v = false.
End TraceProperties.

(** ** Loading the deposit data *)

Record DepositData : Type := {
  dd_validators : list Validator;
  dd_tree : StandardMerkleTree;
}.

(** The characters of a text, each with the bytes of its encoding: a byte
    10xxxxxx continues the character of the byte before it. *)
Definition is_continuation (s : string) : bool :=
  match s with
  | String c _ => (128 <=? nat_of_ascii c)%nat && (nat_of_ascii c <? 192)%nat
  | EmptyString => false
  end.

Fixpoint characters (s : string) : list string :=
  match s with
  | EmptyString => []
  | String c s' =>
      match characters s' with
      | ch :: rest =>
          if is_continuation ch then String c ch :: rest
          else String c EmptyString :: ch :: rest
      | [] => [String c EmptyString]
      end
  end.

(** What a [for] loop goes through on a value that [json.load] may return: the
    items of a list, the keys of a dict, the characters of a string; a number
    or [None] is not iterable. *)
Definition py_iter (v : pyval) : result (list pyval) :=
  match v with
  | PList l => Return l
  | PDict d => Return (map (λ kv, PStr kv.1) d)
  | PStr s => Return (map PStr (characters s))
  | PNone | PInt _ => Raise (TypeError "object is not iterable")
  end.

Section DepositDataFile.
Context {collab : TreeCollaborators}.
(** [json.load] on the text of a file *)
Variable json_load : string → result pyval.

(** The loop of lines 214-221 on entries that need not be dicts. *)
Fixpoint validators_loop_any (credentials : bytes) (i : nat) (deposit_data : list pyval)
    : result (list (bytes * Z) * list Validator) :=
  match deposit_data with
  | [] => Return ([], [])
  | data :: rest =>
      result_bind (getitem data "pubkey") (λ pubkey,
      result_bind (add_0x_prefix pubkey) (λ pk,
      result_bind (getitem data "signature") (λ sig,
      result_bind (add_0x_prefix sig) (λ sg,
      let validator :=
        {| deposit_data_index := Z.of_nat i; public_key := pk; validator_signature := sg |} in
      result_bind (encode_tx_validator credentials validator) (λ leaf,
      result_bind (validators_loop_any credentials (S i) rest) (λ '(leaves, validators),
      Return ((leaf, Z.of_nat i) :: leaves, validator :: validators)))))))
  end.

(** [generate_validators_tree] as it runs on whatever [json.load] returned. *)
Definition generate_validators_tree_any (vault : string) (deposit_data : pyval)
    : result (StandardMerkleTree * list Validator) :=
  let credentials := get_eth1_withdrawal_credentials vault in
  result_bind (py_iter deposit_data) (λ entries,
  result_bind (validators_loop_any credentials 0 entries) (λ '(leaves, validators),
  result_bind (StandardMerkleTree_of leaves) (λ t, Return (t, validators)))).

Definition load_deposit_data (fs : FileSystem) (vault : string) (deposit_data_file : string)
    : result DepositData :=
  result_bind (file_text fs deposit_data_file) (λ text,
  result_bind (json_load text) (λ deposit_data,
  result_bind (generate_validators_tree_any vault deposit_data) (λ '(t, validators),
  Return {| dd_validators := validators; dd_tree := t |}))).
End DepositDataFile.

(** A stand-in for [json.load] that knows two texts. *)
Definition toy_json_load (text : string) : result pyval :=
  if String.eqb text "[a, b]" then Return (PList (map PDict deposit_data_a))
  else if String.eqb text "{a}" then Return (PDict [("validators", PList [])])
  else Raise (ValueError "JSONDecodeError").

Definition deposit_fs : FileSystem :=
  static_fs "/data" ["deposit_data.json"; "object.json"]
    [("/data/deposit_data.json", "[a, b]"); ("/data/object.json", "{a}")].

(** ** More scenarios *)

(** Replica [m1] answers 400 with a body that is not JSON, replica [m2]
    answers 200 with a body that lacks the signature; [b1] answers well. *)
Definition malformed_world : Externals unit :=
  static_world
    [("https://m1", Return {| status := 400; json := Raise (ValueError "JSONDecodeError") |});
     ("https://m2", Return {| status := 200;
                              json := Return (PDict [("ipfs_hash", PStr "QmHash");
                                                     ("deadline", PInt 1700000000)]) |});
     ("https://b1", ok_reply)] [xaa]%byte 7.

(** Two oracles registered under one address. *)
Definition twin_oracles : Oracles :=
  {| addresses := ["0xA"; "0xA"];
     endpoints := [["https://a1"]; ["https://a2"]];
     validators_threshold := 1 |}.

Definition later_approval : OracleApproval :=
  {| ipfs_hash := PStr "QmLater"; signature := [x0c]%byte; deadline := PInt 1700000001 |}.

(** A directory with no keystore in it, and a stand-in for the curve under
    which two private keys share a public key: the first three bytes. *)
Definition empty_fs : FileSystem :=
  static_fs "/data/keystores" ["readme.md"; "keystore-old.bak"; "password.txt"]
    [("/data/keystores/readme.md", "notes");
     ("/data/keystores/keystore-old.bak", "abc=key-old");
     ("/data/keystores/password.txt", "xyz" +:+ newline)].

(** Keystores without a sidecar in a directory whose default password file
    is missing. *)
Definition no_password_fs : FileSystem :=
  static_fs "/data/keystores" ["keystore1.json"; "keystore1.txt"; "keystore2.json"]
    [("/data/keystores/keystore1.json", "abc=key-one");
     ("/data/keystores/keystore1.txt", "abc" +:+ newline);
     ("/data/keystores/keystore2.json", "xyz=key-two")].

(** The directory of spec 8 where the sidecar [keystore1.txt] is a regular
    file that cannot be read. *)
Definition locked_sidecar_fs : FileSystem :=
  {| listdir := listdir scenario_fs;
     isfile := isfile scenario_fs;
     file_text path :=
       if String.eqb path "/data/keystores/keystore1.txt"
       then Raise (OSError path)
       else file_text scenario_fs path |}.

Definition no_pool_settings : Settings :=
  {| keystores_dir := "/data/keystores";
     keystores_password_dir := "/data/keystores";
     keystores_password_file := "/data/keystores/password.txt";
     pool_size := 0 |}.

Definition colliding_crypto : KeystoreCrypto :=
  {| ScryptKeystore := string * string;
     from_text := from_text (KeystoreCrypto := toy_crypto);
     decrypt := decrypt (KeystoreCrypto := toy_crypto);
     SkToPk private_key := Return (take 3 private_key) |}.

(** * Properties *)

(** ** Strings *)

Example str_replace_json : str_replace "keystore1.json" ".json" ".txt" = "keystore1.txt".
Proof. reflexivity. Qed.

Example str_replace_all : str_replace "keystore.json.json" ".json" ".txt" = "keystore.txt.txt".
Proof. reflexivity. Qed.

Example strip_newline : strip (" abc" +:+ String "010"%char EmptyString) = "abc".
Proof. reflexivity. Qed.

(** A no-break space (C2 A0) in front and an ideographic space (E3 80 80)
    behind are stripped; the letter e with an acute accent (C3 A9) is kept. *)
Example strip_unicode :
  strip (String (ascii_of_nat 194) (String (ascii_of_nat 160)
           (String (ascii_of_nat 195) (String (ascii_of_nat 169)
              ("abc" +:+ String (ascii_of_nat 227) (String (ascii_of_nat 128)
                           (String (ascii_of_nat 128) EmptyString)))))))
  = String (ascii_of_nat 195) (String (ascii_of_nat 169) "abc").
Proof. reflexivity. Qed.

Example characters_of_text :
  characters (String (ascii_of_nat 195) (String (ascii_of_nat 169) "ab"))
  = [String (ascii_of_nat 195) (String (ascii_of_nat 169) EmptyString); "a"; "b"].
Proof. reflexivity. Qed.

Example hex_to_bytes_forms :
  hex_to_bytes (PStr "0x0a0b") = Return [x0a; x0b]%byte
  ∧ hex_to_bytes (PStr "0Xabc") = Return [x0a; xbc]%byte
  ∧ hex_to_bytes (PStr "ff") = Return [xff]%byte
  ∧ hex_to_bytes (PStr "0xzz") = Raise (ValueError "Non-hexadecimal digit found").
Proof. repeat split; reflexivity. Qed.

Example endswith_json : endswith "keystore1.json" ".json" = true ∧ endswith "a.jsonx" ".json" = false.
Proof. split; reflexivity. Qed.

Example to_hex_bytes : to_hex [x00; xff; x1a]%byte = "0x00ff1a".
Proof. reflexivity. Qed.

(** ** The monad and the trace readers *)

Section MonadFacts.
Context {World : Type} {ext : Externals World}.

Lemma bind_inv {A B} (m : M World A) (f : A → M World B) w r w' t :
  bind m f w = (r, w', t) →
  (∃ a w1 t1 t2, m w = (Return a, w1, t1) ∧ f a w1 = (r, w', t2) ∧ t = t1 ++ t2)
  ∨ (∃ e, m w = (Raise e, w', t) ∧ r = Raise e).
Proof.
  unfold bind. destruct (m w) as [[[a|e] w1] t1].
  - destruct (f a w1) as [[r2 w2] t2] eqn:Hf. intros [= <- <- <-].
    left. by exists a, w1, t1, t2.
  - intros [= <- <- <-]. right. by exists e.
Qed.

Lemma try_except_inv {A} (body : M World A) catches handler w r w' t :
  try_except body catches handler w = (r, w', t) →
  (body w = (r, w', t) ∧ ∀ e, r = Raise e → catches e = false)
  ∨ (∃ e w1 t1 t2, body w = (Raise e, w1, t1) ∧ catches e = true
       ∧ handler e w1 = (r, w', t2) ∧ t = t1 ++ t2).
Proof.
  unfold try_except. destruct (body w) as [[[a|e] w1] t1].
  - intros [= <- <- <-]. left. split; [done|]. by intros e [=].
  - destruct (catches e) eqn:Hc.
    + destruct (handler e w1) as [[r2 w2] t2] eqn:Hh. intros [= <- <- <-].
      right. by exists e, w1, t1, t2.
    + intros [= <- <- <-]. left. split; [done|]. by intros e' [= <-].
Qed.

Lemma posts_app t1 t2 : posts (t1 ++ t2) = posts t1 ++ posts t2.
Proof. apply omap_app. Qed.

Lemma failures_app t1 t2 : failures (t1 ++ t2) = failures t1 ++ failures t2.
Proof. apply omap_app. Qed.
End MonadFacts.

(** ** One attempt *)

Section AttemptFacts.
Context {World : Type} {ext : Externals World}.

Lemma classify_shape payload e w r w' t :
  classify_failure payload e w = (r, w', t) →
  ∃ e', r = Raise e' ∧ classified payload e e' t.
Proof.
  unfold classify_failure, bind, call, lift, raise, dict_getitem.
  intros H.
  repeat case_match; simplify_eq/=; eexists; (split; [reflexivity|]); try (econstructor; eauto; fail).
Qed.

Lemma try_block_shape endpoint payload w r w1 t :
  (do response <- call (session_post endpoint payload) (EvPost endpoint);
   read_response endpoint response) w = (r, w1, t) →
  ∃ reply, r = try_block_result reply ∧ t = EvPost endpoint reply :: bad_request_log endpoint reply.
Proof.
  unfold read_response, bind, call, lift, log, ret.
  intros H. destruct (session_post endpoint payload w) as [reply w0].
  exists reply. unfold try_block_result, response_data, bad_request_log, raise_for_status in *.
  destruct reply as [response|e]; simpl in *; [|by simplify_eq].
  destruct (status response =? 400) eqn:H400, (json response) as [body|e] eqn:Hjson,
    (400 <=? status response) eqn:Hok; simpl in *; simplify_eq; try done.
  all: apply Z.eqb_eq in H400; apply Z.leb_gt in Hok; lia.
Qed.

Lemma bad_request_log_nil endpoint reply r :
  r = try_block_result reply →
  (∀ e, r = Raise e → is_aiohttp_error e = false) →
  bad_request_log endpoint reply = [].
Proof.
  unfold try_block_result, response_data, bad_request_log, raise_for_status.
  intros -> Hn. destruct reply as [response|e]; simpl in *; [|done].
  destruct (status response =? 400) eqn:H400; [|done].
  destruct (json response) as [body|e] eqn:Hjson; [|done]. simpl in Hn.
  destruct (400 <=? status response) eqn:Hok.
  - by specialize (Hn _ eq_refl).
  - apply Z.eqb_eq in H400; apply Z.leb_gt in Hok; lia.
Qed.

Lemma attempt_shape endpoint payload w r w' t :
  send_approval_request endpoint payload w = (r, w', t) → attempted payload endpoint r t.
Proof.
  unfold send_approval_request. intros H.
  apply bind_inv in H as [(data & w1 & t1 & t2 & Htry & Hmk & ->)|(e & Htry & ->)].
  - unfold lift in Hmk. simplify_eq. rewrite app_nil_r.
    apply try_except_inv in Htry as [[Hb _]|(e & w2 & t3 & t4 & Hb & He & Hh & ->)].
    + apply try_block_shape in Hb as (reply & Hr & ->).
      assert (bad_request_log endpoint reply = []) as ->.
      { eapply bad_request_log_nil; [exact Hr|]. by intros e [=]. }
      by constructor.
    + apply classify_shape in Hh as (e' & [=] & _).
  - apply try_except_inv in Htry as [[Hb Hn]|(e0 & w2 & t3 & t4 & Hb & He & Hh & ->)].
    + apply try_block_shape in Hb as (reply & Hr & ->).
      assert (bad_request_log endpoint reply = []) as ->.
      { eapply bad_request_log_nil; [exact Hr|]. intros e' [= <-]. by apply Hn. }
      apply att_other; [done|]. by apply Hn.
    + apply try_block_shape in Hb as (reply & Hr & ->).
      apply classify_shape in Hh as (e' & [= ->] & Hc).
      by eapply att_classified.
Qed.
End AttemptFacts.

(** ** The replicas loop and the retries *)

Section LoopFacts.
Context {World : Type} {ext : Externals World}.

Lemma for_endpoints_cons_inv payload endpoint rest last w r w' t :
  for_endpoints payload (endpoint :: rest) last w = (r, w', t) →
  (attempted payload endpoint r t ∧ ∀ e, r = Raise e → is_aiohttp_error e = false)
  ∨ (∃ e ta w1 t', attempted payload endpoint (Raise e) ta ∧ is_aiohttp_error e = true
       ∧ for_endpoints payload rest (Some e) w1 = (r, w', t')
       ∧ t = ta ++ LogEndpointFailed e endpoint :: t').
Proof.
  simpl. intros H.
  apply try_except_inv in H as [[Ha Hn]|(e & w1 & ta & t2 & Ha & He & Hh & ->)].
  - left. split; [by eapply attempt_shape|done].
  - right. apply attempt_shape in Ha.
    unfold bind, log in Hh.
    destruct (for_endpoints payload rest (Some e) w1) as [[r' w2] t'] eqn:Hrest.
    simplify_eq/=. by exists e, ta, w1, t'.
Qed.

Lemma wrapped_inv replicas payload w r w' t :
  send_approval_request_to_replicas_wrapped replicas payload w = (r, w', t) →
  ∃ w1, for_endpoints payload (sample_loop (length replicas) replicas w).1 None w1 = (r, w', t).
Proof.
  unfold send_approval_request_to_replicas_wrapped, bind, random_sample.
  destruct (sample_loop (length replicas) replicas w) as [order w1]. simpl.
  destruct (for_endpoints payload order None w1) as [[r' w2] t'] eqn:Hloop.
  intros [= <- <- <-]. by exists w1.
Qed.

(** A property of outcomes and traces that every attempt has, and that is
    kept when a transient failure is followed by more, holds of the whole
    task. *)
Section Closure.
Variable payload : dict.
Variable Q : result OracleApproval → list event → Prop.
Hypothesis Q_attempt : ∀ endpoint r t, attempted payload endpoint r t → Q r t.
Hypothesis Q_end : ∀ e, Q (Raise e) [].
Hypothesis Q_seq : ∀ e t1 r t2,
  Q (Raise e) t1 → is_aiohttp_error e = true → Q r t2 → Q r (t1 ++ t2).
Hypothesis Q_log : ∀ e endpoint r t,
  is_aiohttp_error e = true → Q r t → Q r (LogEndpointFailed e endpoint :: t).

Lemma for_endpoints_closed order last w r w' t :
  for_endpoints payload order last w = (r, w', t) → Q r t.
Proof.
  revert last w r w' t. induction order as [|endpoint rest IH]; intros last w r w' t H.
  - simpl in H. destruct last; unfold raise in H; simplify_eq; apply Q_end.
  - apply for_endpoints_cons_inv in H
      as [[Ha _]|(e & ta & w1 & t' & Ha & He & Hrest & ->)]; [by eapply Q_attempt|].
    eapply Q_seq; [by eapply Q_attempt|done|]. apply Q_log; [done|]. by eapply IH.
Qed.

Lemma replicas_closed retries replicas w r w' t :
  send_approval_request_to_replicas retries replicas payload w = (r, w', t) → Q r t.
Proof.
  unfold send_approval_request_to_replicas.
  revert w r w' t. induction retries as [|n IH]; intros w r w' t H; simpl in H.
  - apply wrapped_inv in H as [w1 H]. by eapply for_endpoints_closed.
  - apply try_except_inv in H as [[H _]|(e & w1 & t1 & t2 & H & He & Hh & ->)].
    + apply wrapped_inv in H as [w1 H]. by eapply for_endpoints_closed.
    + apply wrapped_inv in H as [w2 H]. eapply Q_seq; [|done|by eapply IH].
      by eapply for_endpoints_closed.
Qed.
End Closure.

(** The draw of [random.sample] is a rearrangement. *)
Lemma insert_take_out (l : list string) j x y :
  l !! j = Some x → x :: <[j := y]> l ≡ₚ y :: l.
Proof.
  revert j. induction l as [|z l IH]; intros [|j] H; simplify_eq/=.
  - apply perm_swap.
  - rewrite perm_swap. rewrite (IH _ H). apply perm_swap.
Qed.

Lemma sample_loop_perm m pool w :
  (m ≤ length pool)%nat → (sample_loop m pool w).1 ≡ₚ take m pool.
Proof.
  revert pool w. induction m as [|m IH]; intros pool w Hm; simpl.
  - by rewrite take_0.
  - pose proof (randbelow_lt (S m) w ltac:(lia)) as Hj.
    destruct (randbelow (S m) w) as [j w1]. simpl in Hj.
    destruct (lookup_lt_is_Some_2 pool j ltac:(lia)) as [x Hx].
    destruct (lookup_lt_is_Some_2 pool m ltac:(lia)) as [y Hy].
    rewrite Hx, Hy.
    specialize (IH (<[j := y]> pool) w1). rewrite length_insert in IH.
    specialize (IH ltac:(lia)).
    destruct (sample_loop m (<[j := y]> pool) w1) as [rest w2]. simpl in *.
    rewrite IH, (take_S_r _ _ _ Hy).
    destruct (decide (j = m)) as [->|Hne].
    + rewrite take_insert_ge by lia. simplify_eq. apply Permutation_cons_append.
    + rewrite take_insert_lt by lia.
      rewrite (insert_take_out (take m pool) j x y).
      * apply Permutation_cons_append.
      * rewrite lookup_take_lt by lia. done.
Qed.

Lemma random_sample_perm replicas w :
  (sample_loop (length replicas) replicas w).1 ≡ₚ replicas.
Proof. rewrite sample_loop_perm by done. by rewrite firstn_all. Qed.
End LoopFacts.

(** ** Final answers end the task *)

(** Cases on where an event sits in a trace whose events are known. *)
Ltac split_trace :=
  repeat match goal with
         | H : _ :: _ = ?t0 ++ _ :: _ |- _ => destruct t0; simplify_eq/=
         | H : [] = ?t0 ++ _ :: _ |- _ => destruct t0; simplify_eq/=
         end.

Section FinalFacts.
Context {World : Type} {ext : Externals World}.

Lemma bad_request_log_cases endpoint reply :
  bad_request_log endpoint reply = []
  ∨ ∃ body, bad_request_log endpoint reply = [LogBadRequest endpoint body].
Proof.
  unfold bad_request_log. repeat case_match; eauto.
Qed.

Lemma final_result_not_transient ev e :
  final_result ev (Raise e) → is_aiohttp_error e = false.
Proof.
  destruct ev; simpl; try done.
  - by intros (a & _ & [=]).
  - by intros (e' & _ & [= ->]).
  - by intros (e' & _ & [= ->]).
Qed.

Lemma approval_of_reply_data reply data :
  try_block_result reply = Return data →
  approval_of_reply reply = match make_approval data with Return a => Some a | Raise _ => None end.
Proof. unfold approval_of_reply. by intros ->. Qed.

Lemma approval_of_reply_error reply e :
  try_block_result reply = Raise e → approval_of_reply reply = None.
Proof. unfold approval_of_reply. by intros ->. Qed.

Lemma attempted_finals_last payload endpoint r t :
  attempted payload endpoint r t → finals_last payload r t.
Proof.
  intros Ha t0 ev t1 Ht Hfin. destruct Ha as [reply data Hd|reply e He Hn|reply e e' tl He Ht' Hc].
  - split_trace. rewrite (approval_of_reply_data _ _ Hd) in Hfin |- *.
    destruct (make_approval data) as [a|e]; [|by apply bool_decide_eq_true in Hfin as [? [=]]].
    split; [done|]. by exists a.
  - split_trace. rewrite (approval_of_reply_error _ _ He) in Hfin.
    by apply bool_decide_eq_true in Hfin as [? [=]].
  - assert (is_final payload (EvPost endpoint reply) = false) as Hpost.
    { simpl. rewrite (approval_of_reply_error _ _ He).
      apply bool_decide_eq_false. by intros [? [=]]. }
    destruct (bad_request_log_cases endpoint reply) as [Hb|[body Hb]];
      rewrite Hb in Ht; destruct Hc; simpl in Ht; split_trace;
      try congruence; simpl in Hfin;
      repeat match goal with
             | H : dict_get _ _ = _ |- _ => rewrite H in Hfin
             end;
      try congruence; (split; [done|]); simpl; eauto.
Qed.

Lemma finals_last_closed retries replicas payload w r w' t :
  send_approval_request_to_replicas retries replicas payload w = (r, w', t) →
  finals_last payload r t.
Proof.
  apply replicas_closed.
  - apply attempted_finals_last.
  - intros e t0 ev t1 Ht. by destruct t0.
  - intros e t1 r0 t2 H1 He H2 t0 ev tl Ht Hfin.
    apply app_eq_inv in Ht as [(k & -> & Hk)|(k & -> & ->)].
    + destruct k as [|ev' k]; simplify_eq/=; [by eapply (H2 [])|].
      destruct (H1 _ _ _ eq_refl Hfin) as [_ Hr].
      apply final_result_not_transient in Hr. congruence.
    + by eapply H2.
  - intros e endpoint r0 t0 _ H t1 ev tl Ht Hfin.
    destruct t1 as [|ev' t1]; simplify_eq/=. by eapply H.
Qed.
(** An approval returned comes from the reply to the last post. *)
Lemma returned_approval_closed retries replicas payload w r w' t a :
  send_approval_request_to_replicas retries replicas payload w = (r, w', t) →
  r = Return a →
  ∃ t0 endpoint reply, t = t0 ++ [EvPost endpoint reply] ∧ approval_of_reply reply = Some a.
Proof.
  intros Hrun. revert a.
  refine (replicas_closed payload
            (λ r t, ∀ a, r = Return a →
               ∃ t0 endpoint reply,
                 t = t0 ++ [EvPost endpoint reply] ∧ approval_of_reply reply = Some a)
            _ _ _ _ retries replicas w r w' t Hrun).
  - intros endpoint r0 t0 [reply data Hd|reply e He Hn|reply e e' tl He Ht' Hc] a Hr;
      [|done..].
    exists [], endpoint, reply. split; [done|].
    by rewrite (approval_of_reply_data _ _ Hd), Hr.
  - by intros e a.
  - intros e t1 r0 t2 _ _ H2 a Hr.
    destruct (H2 _ Hr) as (t0 & endpoint & reply & -> & Ha).
    exists (t1 ++ t0), endpoint, reply. by rewrite <-app_assoc.
  - intros e endpoint r0 t0 _ H a Hr.
    destruct (H _ Hr) as (t1 & endpoint' & reply & -> & Ha).
    by exists (LogEndpointFailed e endpoint :: t1), endpoint', reply.
Qed.
End FinalFacts.

(** ** The order of the checks *)

Section OrderFacts.
Context {World : Type} {ext : Externals World}.

Lemma attempted_index_after_root payload endpoint r t :
  attempted payload endpoint r t → index_after_root payload t.
Proof.
  intros Ha t0 reply t1 Ht. destruct Ha as [reply' data Hd|reply' e He Hn|reply' e e' tl He Ht' Hc].
  - split_trace.
  - split_trace.
  - destruct (bad_request_log_cases endpoint reply') as [Hb|[body Hb]];
      rewrite Hb in Ht; destruct Hc; simpl in Ht; split_trace.
    all: first [ by eexists [_], _, _, _ | by eexists [_; _], _, _, _ ].
Qed.

Lemma index_after_root_closed retries replicas payload w r w' t :
  send_approval_request_to_replicas retries replicas payload w = (r, w', t) →
  index_after_root payload t.
Proof.
  apply (replicas_closed payload (λ _ t, index_after_root payload t)).
  - apply attempted_index_after_root.
  - intros e t0 reply t1 Ht. by destruct t0.
  - intros e t1 r0 t2 H1 _ H2 t0 reply tl Ht.
    apply app_eq_inv in Ht as [(k & -> & Hk)|(k & -> & ->)].
    + destruct k as [|ev' k]; simplify_eq/=.
      * destruct (H2 [] _ _ eq_refl) as (t0' & ? & ? & ? & Hnil & _). by destruct t0'.
      * by eapply H1.
    + destruct (H2 _ _ _ eq_refl) as (t0' & root & keys & v & -> & Hv & Hne).
      exists (t1 ++ t0'), root, keys, v. by rewrite <-app_assoc.
  - intros e endpoint r0 t0 _ H t1 reply tl Ht.
    destruct t1 as [|ev' t1]; simplify_eq/=.
    destruct (H _ _ _ eq_refl) as (t0' & root & keys & v & -> & Hv & Hne).
    by exists (LogEndpointFailed e endpoint :: t0'), root, keys, v.
Qed.
End OrderFacts.

(** ** Counting attempts and logged failures *)

Section CountFacts.
Context {World : Type} {ext : Externals World}.

Lemma attempted_posts payload endpoint r t :
  attempted payload endpoint r t → posts t = [endpoint] ∧ failures t = [].
Proof.
  intros [reply data Hd|reply e He Hn|reply e e' tl He Ht' Hc]; [done..|].
  destruct (bad_request_log_cases endpoint reply) as [Hb|[body Hb]];
    rewrite Hb; by destruct Hc.
Qed.

(** The loop posts to the endpoints in their order, and stops early or goes
    through them all. *)
Lemma for_endpoints_posts payload order last w r w' t :
  for_endpoints payload order last w = (r, w', t) → posts t `prefix_of` order.
Proof.
  revert last w r w' t. induction order as [|endpoint rest IH]; intros last w r w' t H.
  - simpl in H. destruct last; unfold raise in H; by simplify_eq.
  - apply for_endpoints_cons_inv in H
      as [[Ha _]|(e & ta & w1 & t' & Ha & He & Hrest & ->)].
    + apply attempted_posts in Ha as [-> _]. apply prefix_cons, prefix_nil.
    + apply attempted_posts in Ha as [Hp _]. rewrite posts_app, Hp. simpl.
      apply prefix_cons. by eapply IH.
Qed.

Lemma for_endpoints_counts payload order last_error w r w' t :
  for_endpoints payload order last_error w = (r, w', t) →
  (length (failures t) ≤ length (posts t))%nat
  ∧ ((length (failures t) = length (posts t))%nat →
     posts t = order ∧ (failures t).*2 = order
     ∧ r = Raise (closing_error last_error (failures t))).
Proof.
  revert last_error w r w' t.
  induction order as [|endpoint rest IH]; intros last_error w r w' t H.
  - simpl in H. destruct last_error; unfold raise in H; by simplify_eq.
  - apply for_endpoints_cons_inv in H
      as [[Ha _]|(e & ta & w1 & t' & Ha & He & Hrest & ->)].
    + apply attempted_posts in Ha as [-> ->]. simpl. split; [lia|]. intros [=].
    + apply attempted_posts in Ha as [Hp Hf].
      destruct (IH _ _ _ _ _ Hrest) as [Hle Heq].
      rewrite posts_app, failures_app, Hp, Hf. simpl. split; [lia|].
      intros Hlen. destruct (Heq ltac:(lia)) as (-> & Hfs & ->).
      split; [done|]. split; [f_equal; exact Hfs|].
      unfold closing_error. simpl. destruct (failures t') as [|[e1 ep1] fs]; [done|].
      rewrite last_cons_cons.
      destruct (last ((e1, ep1) :: fs)) as [[e2 ep2]|] eqn:Hl; [done|].
      by apply last_None in Hl.
Qed.
Lemma failures_transient retries replicas payload w r w' t :
  send_approval_request_to_replicas retries replicas payload w = (r, w', t) →
  Forall (λ failed, is_aiohttp_error failed.1 = true) (failures t).
Proof.
  apply (replicas_closed payload (λ _ t, Forall _ (failures t))).
  - intros endpoint r0 t0 Ha. apply attempted_posts in Ha as [_ ->]. constructor.
  - intros e. constructor.
  - intros e t1 r0 t2 H1 _ H2. rewrite failures_app. by apply Forall_app.
  - intros e endpoint r0 t0 He H. simpl. by constructor.
Qed.

Lemma wrapped_counts replicas payload w r w' t :
  send_approval_request_to_replicas_wrapped replicas payload w = (r, w', t) →
  (length (failures t) ≤ length (posts t))%nat
  ∧ ((length (failures t) = length (posts t))%nat → replicas ≠ [] →
     ∃ e endpoint, last (failures t) = Some (e, endpoint)
       ∧ last (posts t) = Some endpoint ∧ r = Raise e).
Proof.
  intros H. apply wrapped_inv in H as [w1 H].
  apply for_endpoints_counts in H as [Hle Heq]. split; [done|].
  intros Hlen Hne. destruct (Heq Hlen) as (Hp & Hf & ->).
  assert (failures t ≠ []) as Hfs.
  { intros Hnil. rewrite Hnil in Hf. simpl in Hf.
    pose proof (random_sample_perm replicas w) as Hperm.
    rewrite <-Hf in Hperm. symmetry in Hperm. by apply Permutation_nil_r in Hperm. }
  apply last_is_Some in Hfs as [[e endpoint] Hlast].
  exists e, endpoint. split; [done|].
  split; [by rewrite Hp, <-Hf, fmap_last, Hlast|].
  unfold closing_error. by rewrite Hlast.
Qed.

Lemma replicas_counts retries replicas payload w r w' t :
  send_approval_request_to_replicas retries replicas payload w = (r, w', t) →
  (length (failures t) ≤ length (posts t))%nat
  ∧ ((length (failures t) = length (posts t))%nat → replicas ≠ [] →
     ∃ e endpoint, last (failures t) = Some (e, endpoint)
       ∧ last (posts t) = Some endpoint ∧ r = Raise e).
Proof.
  unfold send_approval_request_to_replicas.
  revert w r w' t. induction retries as [|n IH]; intros w r w' t H; simpl in H.
  - by eapply wrapped_counts.
  - apply try_except_inv in H as [[H _]|(e & w1 & t1 & t2 & H & He & Hh & ->)].
    + by eapply wrapped_counts.
    + apply wrapped_counts in H as [Hle1 _]. apply IH in Hh as [Hle2 Heq2].
      rewrite failures_app, posts_app, !length_app. split; [lia|].
      intros Hlen Hne. destruct (Heq2 ltac:(lia) Hne) as (e2 & endpoint & Hl & Hp & ->).
      exists e2, endpoint. by rewrite !last_app, Hl, Hp.
Qed.
End CountFacts.

(** ** Running one attempt forward *)

Section AttemptRuns.
Context {World : Type} {ext : Externals World}.

Lemma try_block_run endpoint payload w reply w1 :
  session_post endpoint payload w = (reply, w1) →
  (do response <- call (session_post endpoint payload) (EvPost endpoint);
   read_response endpoint response) w
  = (try_block_result reply, w1, EvPost endpoint reply :: bad_request_log endpoint reply).
Proof.
  intros Hpost. unfold read_response, bind, call, lift, log, ret. rewrite Hpost.
  unfold try_block_result, response_data, bad_request_log, raise_for_status.
  destruct reply as [response|e]; simpl; [|done].
  destruct (status response =? 400) eqn:H400, (json response) as [body|e] eqn:Hjson,
    (400 <=? status response) eqn:Hok; simpl; try done.
  all: apply Z.eqb_eq in H400; apply Z.leb_gt in Hok; lia.
Qed.

Lemma send_approval_request_transient endpoint payload w reply w1 e :
  session_post endpoint payload w = (reply, w1) →
  try_block_result reply = Raise e →
  is_aiohttp_error e = true →
  send_approval_request endpoint payload w
  = (let '(r, w', tl) := classify_failure payload e w1 in
     (result_bind r make_approval, w',
      EvPost endpoint reply :: bad_request_log endpoint reply ++ tl)).
Proof.
  intros Hpost He Ht. unfold send_approval_request.
  unfold bind at 1. unfold try_except. rewrite (try_block_run _ _ _ _ _ Hpost), He, Ht.
  destruct (classify_failure payload e w1) as [[[data|e'] w'] tl]; simpl; [|done].
  unfold lift. by rewrite app_nil_r.
Qed.

Lemma classify_root_changed payload e w registry_root w1 v :
  get_registry_root w = (Return registry_root, w1) →
  dict_get payload "validators_root" = Some v →
  py_ne_str (to_hex registry_root) v = true →
  classify_failure payload e w
  = (Raise (RegistryRootChangedError e), w1, [EvRegistryRoot (Return registry_root)]).
Proof.
  intros Hroot Hv Hne. unfold classify_failure, bind, call, lift, raise, dict_getitem.
  by rewrite Hroot, Hv, Hne.
Qed.

Lemma classify_index_changed payload e w registry_root w1 v keys w2 index w3 vi :
  get_registry_root w = (Return registry_root, w1) →
  dict_get payload "validators_root" = Some v →
  py_ne_str (to_hex registry_root) v = false →
  get_latest_network_validator_public_keys w1 = (Return keys, w2) →
  get_next_validator_index keys w2 = (Return index, w3) →
  dict_get payload "validator_index" = Some vi →
  py_ne_int index vi = true →
  classify_failure payload e w
  = (Raise (ValidatorIndexChangedError e), w3,
     [EvRegistryRoot (Return registry_root); EvPublicKeys (Return keys);
      EvNextIndex (Return index)]).
Proof.
  intros Hroot Hv Hne Hkeys Hidx Hvi Hni.
  unfold classify_failure, bind, call, lift, raise, dict_getitem.
  by rewrite Hroot, Hv, Hne, Hkeys, Hidx, Hvi, Hni.
Qed.
End AttemptRuns.

(** ** Passes of the retried task *)

Section PassFacts.
Context {World : Type} {ext : Externals World}.

(** Each invocation of the coroutine posts along a shuffle of the replicas. *)
Lemma wrapped_pass replicas payload w r w' t :
  send_approval_request_to_replicas_wrapped replicas payload w = (r, w', t) →
  ∃ shuffled, shuffled ≡ₚ replicas ∧ posts t `prefix_of` shuffled.
Proof.
  intros H. exists (sample_loop (length replicas) replicas w).1.
  split; [apply random_sample_perm|].
  apply wrapped_inv in H as [w1 H]. by eapply for_endpoints_posts.
Qed.

(** The decorated task is a sequence of at most [retries + 1] such passes. *)
Lemma replicas_passes retries replicas payload w r w' t :
  send_approval_request_to_replicas retries replicas payload w = (r, w', t) →
  ∃ passes,
    posts t = concat passes ∧ (length passes ≤ S retries)%nat
    ∧ Forall (λ pass, ∃ shuffled, shuffled ≡ₚ replicas ∧ pass `prefix_of` shuffled) passes.
Proof.
  unfold send_approval_request_to_replicas.
  revert w r w' t. induction retries as [|n IH]; intros w r w' t H; simpl in H.
  - apply wrapped_pass in H. exists [posts t]. simpl. rewrite app_nil_r.
    split; [done|]. split; [lia|]. by constructor.
  - apply try_except_inv in H as [[H _]|(e & w1 & t1 & t2 & H & He & Hh & ->)].
    + apply wrapped_pass in H. exists [posts t]. simpl. rewrite app_nil_r.
      split; [done|]. split; [lia|]. by constructor.
    + apply wrapped_pass in H. apply IH in Hh as (passes & Hp & Hlen & Hall).
      exists (posts t1 :: passes). simpl. rewrite posts_app, Hp.
      split; [done|]. split; [lia|]. by constructor.
Qed.

(** The outcome of the batch is the aggregation of the gathered outcomes. *)
Lemma send_approval_requests_result {OraclesApproval : Type}
    (process_oracles_approvals : gmap string OracleApproval → Z → result OraclesApproval)
    retries oracles request w :
  (send_approval_requests process_oracles_approvals retries oracles request w).1.1
  = (aggregate process_oracles_approvals oracles request
       (gather (map (λ '(address, replicas),
                       send_approval_request_to_replicas retries replicas (asdict request))
                    (zip (addresses oracles) (endpoints oracles))) w).1.1).1.
Proof.
  unfold send_approval_requests.
  destruct (gather _ w) as [[results w1] t1]. simpl.
  by destruct (aggregate process_oracles_approvals oracles request results).
Qed.
End PassFacts.

(** * The properties of the specification *)

(** C1.  When an attempt fails with a transient error and the registry root
    read back from the chain differs from the payload's [validators_root],
    [send_approval_request] raises [RegistryRootChangedError] (first part),
    and in a task over an oracle's replicas, whatever the retries, that
    reading is the last event: the task ends with the error and no further
    replica is posted to (second part). *)
Theorem registry_root_change_aborts {World : Type} {ext : Externals World}
    (payload : dict) (v : pyval) :
  dict_get payload "validators_root" = Some v →
  (∀ endpoint w reply w1 e registry_root w2,
     session_post endpoint payload w = (reply, w1) →
     try_block_result reply = Raise e →
     is_aiohttp_error e = true →
     get_registry_root w1 = (Return registry_root, w2) →
     py_ne_str (to_hex registry_root) v = true →
     send_approval_request endpoint payload w
     = (Raise (RegistryRootChangedError e), w2,
        EvPost endpoint reply :: bad_request_log endpoint reply
          ++ [EvRegistryRoot (Return registry_root)]))
  ∧ (∀ retries replicas w r w' t t0 registry_root t1,
       send_approval_request_to_replicas retries replicas payload w = (r, w', t) →
       t = t0 ++ EvRegistryRoot (Return registry_root) :: t1 →
       py_ne_str (to_hex registry_root) v = true →
       t1 = [] ∧ ∃ e, is_aiohttp_error e = true ∧ r = Raise (RegistryRootChangedError e)).
Proof.
  intros Hv. split.
  - intros endpoint w reply w1 e registry_root w2 Hpost He Ht Hroot Hne.
    rewrite (send_approval_request_transient _ _ _ _ _ _ Hpost He Ht).
    by rewrite (classify_root_changed _ _ _ _ _ _ Hroot Hv Hne).
  - intros retries replicas w r w' t t0 registry_root t1 Hrun Ht Hne.
    apply finals_last_closed in Hrun.
    apply (Hrun _ _ _ Ht). simpl. by rewrite Hv.
Qed.

Lemma registry_root_change_aborts_witness :
  send_approval_request (ext := stale_root_world) "https://a1" (asdict the_request) ()
  = (Raise (RegistryRootChangedError TimeoutError), (),
     [EvPost "https://a1" (Raise TimeoutError); EvRegistryRoot (Return [xbb]%byte)])
  ∧ ∃ e, is_aiohttp_error e = true
      ∧ (send_approval_request_to_replicas (ext := stale_root_world) 2
           ["https://a1"; "https://a2"] (asdict the_request) ()).1.1
        = Raise (RegistryRootChangedError e).
Proof.
  destruct (registry_root_change_aborts (ext := stale_root_world)
              (asdict the_request) (PStr "0xaa") eq_refl) as [Hone Htask].
  split.
  - apply (Hone "https://a1" () (Raise TimeoutError) () TimeoutError [xbb]%byte ());
      reflexivity.
  - apply (Htask 2%nat ["https://a1"; "https://a2"] ()
             (Raise (RegistryRootChangedError TimeoutError)) ()
             [EvPost "https://a1" (Raise TimeoutError); EvRegistryRoot (Return [xbb]%byte)]
             [EvPost "https://a1" (Raise TimeoutError)] [xbb]%byte []); reflexivity.
Defined.

(** C2.  When an attempt fails with a transient error, the registry root read
    back equals the payload's and the next validator index derived does not
    equal the payload's [validator_index], [send_approval_request] raises
    [ValidatorIndexChangedError] (first part); in a task over an oracle's
    replicas that index is the last event, the task ends with the error and no
    further replica is posted to (second part); and an index is only ever
    derived right after a registry root equal to the payload's has been read:
    the root check comes first (third part). *)
Theorem validator_index_change_aborts {World : Type} {ext : Externals World}
    (payload : dict) (v vi : pyval) :
  dict_get payload "validators_root" = Some v →
  dict_get payload "validator_index" = Some vi →
  (∀ endpoint w reply w1 e registry_root w2 keys w3 index w4,
     session_post endpoint payload w = (reply, w1) →
     try_block_result reply = Raise e →
     is_aiohttp_error e = true →
     get_registry_root w1 = (Return registry_root, w2) →
     py_ne_str (to_hex registry_root) v = false →
     get_latest_network_validator_public_keys w2 = (Return keys, w3) →
     get_next_validator_index keys w3 = (Return index, w4) →
     py_ne_int index vi = true →
     send_approval_request endpoint payload w
     = (Raise (ValidatorIndexChangedError e), w4,
        EvPost endpoint reply :: bad_request_log endpoint reply
          ++ [EvRegistryRoot (Return registry_root); EvPublicKeys (Return keys);
              EvNextIndex (Return index)]))
  ∧ (∀ retries replicas w r w' t,
       send_approval_request_to_replicas retries replicas payload w = (r, w', t) →
       (∀ t0 index t1,
          t = t0 ++ EvNextIndex (Return index) :: t1 →
          py_ne_int index vi = true →
          t1 = [] ∧ ∃ e, is_aiohttp_error e = true ∧ r = Raise (ValidatorIndexChangedError e))
       ∧ (∀ t0 reply t1,
            t = t0 ++ EvNextIndex reply :: t1 →
            ∃ t0' registry_root keys,
              t0 = t0' ++ [EvRegistryRoot (Return registry_root); EvPublicKeys (Return keys)]
              ∧ py_ne_str (to_hex registry_root) v = false)).
Proof.
  intros Hv Hvi. split.
  - intros endpoint w reply w1 e registry_root w2 keys w3 index w4
      Hpost He Ht Hroot Hne Hkeys Hidx Hni.
    rewrite (send_approval_request_transient _ _ _ _ _ _ Hpost He Ht).
    by rewrite (classify_index_changed _ _ _ _ _ _ _ _ _ _ _ Hroot Hv Hne Hkeys Hidx Hvi Hni).
  - intros retries replicas w r w' t Hrun. split.
    + intros t0 index t1 Ht Hni. apply finals_last_closed in Hrun.
      apply (Hrun _ _ _ Ht). simpl. by rewrite Hvi.
    + intros t0 reply t1 Ht. apply index_after_root_closed in Hrun.
      destruct (Hrun _ _ _ Ht) as (t0' & registry_root & keys & v' & -> & Hv' & Hne).
      exists t0', registry_root, keys. split; [done|]. congruence.
Qed.

Lemma validator_index_change_aborts_witness :
  send_approval_request (ext := stale_index_world) "https://a1" (asdict the_request) ()
  = (Raise (ValidatorIndexChangedError TimeoutError), (),
     [EvPost "https://a1" (Raise TimeoutError); EvRegistryRoot (Return [xaa]%byte);
      EvPublicKeys (Return []); EvNextIndex (Return 8)])
  ∧ ∃ e, is_aiohttp_error e = true
      ∧ (send_approval_request_to_replicas (ext := stale_index_world) 2
           ["https://a1"; "https://a2"] (asdict the_request) ()).1.1
        = Raise (ValidatorIndexChangedError e).
Proof.
  destruct (validator_index_change_aborts (ext := stale_index_world)
              (asdict the_request) (PStr "0xaa") (PInt 7) eq_refl eq_refl) as [Hone Htask].
  split.
  - apply (Hone "https://a1" () (Raise TimeoutError) () TimeoutError [xaa]%byte () [] () 8 ());
      reflexivity.
  - destruct (Htask 2%nat ["https://a1"; "https://a2"] ()
                (Raise (ValidatorIndexChangedError TimeoutError)) ()
                [EvPost "https://a1" (Raise TimeoutError); EvRegistryRoot (Return [xaa]%byte);
                 EvPublicKeys (Return []); EvNextIndex (Return 8)] eq_refl) as [Hlast _].
    apply (Hlast [EvPost "https://a1" (Raise TimeoutError); EvRegistryRoot (Return [xaa]%byte);
                  EvPublicKeys (Return [])] 8 []); reflexivity.
Defined.

(** C5.  For a non-empty replica list, when every attempt of the task has
    failed with a transient error (every endpoint posted to has been logged as
    failed by the loop, which logs exactly the [ClientError]s and
    [TimeoutError]s it catches), [send_approval_request_to_replicas] raises
    the error of the last attempt: the one logged last, for the endpoint
    posted to last. *)
Theorem all_replicas_fail_raises_last {World : Type} {ext : Externals World}
    (retries : nat) (replicas : list string) (payload : dict) (w : World)
    (r : result OracleApproval) (w' : World) (t : list event) :
  replicas ≠ [] →
  send_approval_request_to_replicas retries replicas payload w = (r, w', t) →
  (failures t).*2 = posts t →
  ∃ e endpoint,
    last (failures t) = Some (e, endpoint) ∧ last (posts t) = Some endpoint
    ∧ is_aiohttp_error e = true ∧ r = Raise e.
Proof.
  intros Hne Hrun Hall.
  destruct (replicas_counts _ _ _ _ _ _ _ Hrun) as [_ Heq].
  destruct Heq as (e & endpoint & Hlast & Hpost & ->); [|done|].
  { by rewrite <-Hall, length_fmap. }
  exists e, endpoint. repeat split; try done.
  apply failures_transient in Hrun.
  apply last_Some_elem_of in Hlast.
  by apply (proj1 (Forall_forall _ _) Hrun) in Hlast.
Qed.

Lemma all_replicas_fail_raises_last_witness :
  ∃ t, (send_approval_request_to_replicas (ext := fresh_world) 0
          ["https://a1"; "https://a2"] (asdict the_request) ()).2 = t
    ∧ head (failures t) = Some (ClientError "Cannot connect to host", "https://a1")
    ∧ ∃ e endpoint,
        last (failures t) = Some (e, endpoint) ∧ last (posts t) = Some endpoint
        ∧ is_aiohttp_error e = true ∧ Raise TimeoutError = Raise (A := OracleApproval) e.
Proof.
  eexists. split; [reflexivity|]. split; [reflexivity|].
  apply (all_replicas_fail_raises_last (ext := fresh_world) 0
           ["https://a1"; "https://a2"] (asdict the_request) () (Raise TimeoutError) ());
    [discriminate|reflexivity|reflexivity].
Defined.

(** C6.  In one invocation of the coroutine the replicas are posted to one
    after the other, in the order of a shuffle that is a permutation of the
    oracle's replica list, so each replica is attempted at most once; and a
    reply that amounts to a well-formed [OracleApproval] is the last event:
    the approval is returned and no replica after it is posted to.  An
    approval that is returned is the one of the last reply. *)
Theorem first_success_stops_loop {World : Type} {ext : Externals World}
    (replicas : list string) (payload : dict) (w : World)
    (r : result OracleApproval) (w' : World) (t : list event) :
  send_approval_request_to_replicas_wrapped replicas payload w = (r, w', t) →
  ∃ shuffled,
    shuffled ≡ₚ replicas
    ∧ posts t `prefix_of` shuffled
    ∧ posts t ⊆+ replicas
    ∧ (∀ t0 endpoint reply t1 a,
         t = t0 ++ EvPost endpoint reply :: t1 →
         approval_of_reply reply = Some a →
         t1 = [] ∧ r = Return a)
    ∧ (∀ a, r = Return a →
         ∃ t0 endpoint reply,
           t = t0 ++ [EvPost endpoint reply] ∧ approval_of_reply reply = Some a).
Proof.
  intros Hrun. exists (sample_loop (length replicas) replicas w).1.
  pose proof (random_sample_perm replicas w) as Hperm.
  assert (posts t `prefix_of` (sample_loop (length replicas) replicas w).1) as Hpre.
  { apply wrapped_inv in Hrun as [w1 Hrun]. by eapply for_endpoints_posts. }
  split; [done|]. split; [done|]. split; [|split].
  - rewrite <-Hperm. destruct Hpre as [k ->]. apply submseteq_inserts_r. done.
  - intros t0 endpoint reply t1 a Ht Ha.
    pose proof (finals_last_closed 0 replicas payload w r w' t Hrun) as Hfin.
    destruct (Hfin _ _ _ Ht) as [-> (a' & Ha' & ->)].
    + simpl. rewrite Ha. by apply bool_decide_eq_true.
    + split; [done|]. congruence.
  - intros a Hr. by eapply (returned_approval_closed 0).
Qed.

Lemma first_success_stops_loop_witness :
  ∃ shuffled,
    shuffled ≡ₚ ["https://a1"; "https://a2"; "https://a3"; "https://b1"]
    ∧ ["https://a1"; "https://b1"] `prefix_of` shuffled
    ∧ ["https://a1"; "https://b1"] ⊆+ ["https://a1"; "https://a2"; "https://a3"; "https://b1"]
    ∧ (∀ t0 endpoint reply t1 a,
         [EvPost "https://a1" (Raise (ClientError "Cannot connect to host"));
          EvRegistryRoot (Return [xaa]%byte); EvPublicKeys (Return []); EvNextIndex (Return 7);
          LogEndpointFailed (ClientError "Cannot connect to host") "https://a1";
          EvPost "https://b1" ok_reply]
         = t0 ++ EvPost endpoint reply :: t1 →
         approval_of_reply (ext := fresh_world) reply = Some a →
         t1 = [] ∧ Return the_approval = Return a)
    ∧ (∀ a, Return the_approval = Return a →
         ∃ t0 endpoint reply,
           [EvPost "https://a1" (Raise (ClientError "Cannot connect to host"));
            EvRegistryRoot (Return [xaa]%byte); EvPublicKeys (Return []); EvNextIndex (Return 7);
            LogEndpointFailed (ClientError "Cannot connect to host") "https://a1";
            EvPost "https://b1" ok_reply]
           = t0 ++ [EvPost endpoint reply]
           ∧ approval_of_reply (ext := fresh_world) reply = Some a).
Proof.
  apply (first_success_stops_loop (ext := fresh_world)
           ["https://a1"; "https://a2"; "https://a3"; "https://b1"] (asdict the_request) ()
           (Return the_approval) ()
           [EvPost "https://a1" (Raise (ClientError "Cannot connect to host"));
            EvRegistryRoot (Return [xaa]%byte); EvPublicKeys (Return []); EvNextIndex (Return 7);
            LogEndpointFailed (ClientError "Cannot connect to host") "https://a1";
            EvPost "https://b1" ok_reply]).
  reflexivity.
Defined.

(** ** Aggregation *)

Section CollectFacts.
Implicit Types (rows : list (string * list string * result OracleApproval)).
Implicit Types (approvals : gmap string OracleApproval).

(** An address with no successful row keeps what the mapping had. *)
Lemma collect_lookup_other rows acc failed approvals failed' warnings address :
  collect rows acc failed = (approvals, failed', warnings) →
  (∀ i replicas approval, rows !! i ≠ Some (address, replicas, Return approval)) →
  approvals !! address = acc !! address.
Proof.
  revert acc failed approvals failed' warnings.
  induction rows as [|[[address' replicas'] [approval'|e]] rows IH];
    intros acc failed approvals failed' warnings H Hno; simpl in H.
  - by simplify_eq.
  - rewrite (IH _ _ _ _ _ H); [|intros i ? ?; apply (Hno (S i))].
    apply lookup_insert_ne. intros ->. by eapply (Hno O).
  - destruct (collect rows acc (failed ++ replicas')) as [[a f] t] eqn:Hc. simplify_eq.
    eapply IH; [done|]. intros i ? ?. apply (Hno (S i)).
Qed.

(** The last successful row of an address decides its approval. *)
Lemma collect_lookup_success rows acc failed approvals failed' warnings i address replicas approval :
  collect rows acc failed = (approvals, failed', warnings) →
  rows !! i = Some (address, replicas, Return approval) →
  (∀ j replicas' approval', (i < j)%nat →
     rows !! j ≠ Some (address, replicas', Return approval')) →
  approvals !! address = Some approval.
Proof.
  revert i acc failed approvals failed' warnings.
  induction rows as [|[[address' replicas'] [approval'|e]] rows IH];
    intros i acc failed approvals failed' warnings H Hi Hlast; [done|..]; simpl in H.
  - destruct i as [|i]; simplify_eq/=.
    + rewrite (collect_lookup_other _ _ _ _ _ _ address H).
      * apply lookup_insert_eq.
      * intros j ? ?. apply (Hlast (S j)). lia.
    + eapply IH; [done..|]. intros j ? ? Hj. apply (Hlast (S j)). lia.
  - destruct (collect rows acc (failed ++ replicas')) as [[a f] t] eqn:Hc. simplify_eq.
    destruct i as [|i]; simplify_eq/=.
    eapply IH; [done..|]. intros j ? ? Hj. apply (Hlast (S j)). lia.
Qed.

(** An approval in the mapping was there before or comes from a successful row. *)
Lemma collect_lookup_inv rows acc failed approvals failed' warnings address approval :
  collect rows acc failed = (approvals, failed', warnings) →
  approvals !! address = Some approval →
  acc !! address = Some approval
  ∨ ∃ i replicas, rows !! i = Some (address, replicas, Return approval).
Proof.
  revert acc failed approvals failed' warnings.
  induction rows as [|[[address' replicas'] [approval'|e]] rows IH];
    intros acc failed approvals failed' warnings H Ha; simpl in H.
  - simplify_eq. by left.
  - destruct (IH _ _ _ _ _ H Ha) as [Hacc|(i & replicas & Hi)].
    + destruct (decide (address' = address)) as [->|Hne].
      * rewrite lookup_insert_eq in Hacc. simplify_eq. right. by exists O, replicas'.
      * rewrite lookup_insert_ne in Hacc by done. by left.
    + right. by exists (S i), replicas.
  - destruct (collect rows acc (failed ++ replicas')) as [[a f] t] eqn:Hc. simplify_eq.
    destruct (IH _ _ _ _ _ Hc Ha) as [Hacc|(i & replicas & Hi)]; [by left|].
    right. by exists (S i), replicas.
Qed.

(** The failed endpoints are the replicas of the failed rows, in order. *)
Lemma collect_failed rows acc failed approvals failed' warnings :
  collect rows acc failed = (approvals, failed', warnings) →
  failed' = failed
    ++ concat (omap (λ row, match row.2 with Raise _ => Some row.1.2 | Return _ => None end) rows)
  ∧ warnings
    = omap (λ row, match row.2 with Raise e => Some (LogOracleFailed row.1.1 e) | Return _ => None end)
        rows.
Proof.
  revert acc failed approvals failed' warnings.
  induction rows as [|[[address' replicas'] [approval'|e]] rows IH];
    intros acc failed approvals failed' warnings H; simpl in H.
  - simplify_eq. by rewrite app_nil_r.
  - by apply IH in H.
  - destruct (collect rows acc (failed ++ replicas')) as [[a f] t] eqn:Hc. simplify_eq.
    apply IH in Hc as [-> ->]. simpl. by rewrite <-app_assoc.
Qed.
End CollectFacts.

Section AggregateFacts.
Context {OraclesApproval : Type}.
Variable process_oracles_approvals : gmap string OracleApproval → Z → result OraclesApproval.

Lemma aggregate_result oracles request results :
  (aggregate process_oracles_approvals oracles request results).1
  = process_oracles_approvals
      (collect (zip (zip (addresses oracles) (endpoints oracles)) results) ∅ []).1.1
      (validators_threshold oracles).
Proof.
  unfold aggregate.
  by destruct (collect (zip (zip (addresses oracles) (endpoints oracles)) results) ∅ [])
    as [[approvals failed] warnings].
Qed.

Lemma collect_same_success (keys : list (string * list string)) results results' acc failed :
  Forall2 same_success results results' →
  (collect (zip keys results) acc failed).1 = (collect (zip keys results') acc failed).1.
Proof.
  intros H. revert keys acc failed.
  induction H as [|r r' results results' Hr H IH]; intros [|[address replicas] keys] acc failed;
    try done.
  destruct r as [a|e], r' as [a'|e']; simpl in Hr; try done; simpl.
  - subst. apply IH.
  - specialize (IH keys acc (failed ++ replicas)).
    destruct (collect (zip keys results) acc (failed ++ replicas)) as [[a1 f1] t1].
    destruct (collect (zip keys results') acc (failed ++ replicas)) as [[a2 f2] t2].
    simpl in *. done.
Qed.
End AggregateFacts.

(** What [gather] returns are the outcomes of the tasks, and conversely. *)
Lemma gather_outcomes {World A : Type} (tasks : list (M World A)) w results w' t :
  gather tasks w = (results, w', t) → task_outcomes tasks w results w' t.
Proof.
  revert w results w' t. induction tasks as [|task tasks IH]; intros w results w' t H; simpl in H.
  - simplify_eq. constructor.
  - destruct (task w) as [[r w1] t1] eqn:Htask.
    destruct (gather tasks w1) as [[rs w2] t2] eqn:Hrest. simplify_eq.
    econstructor; [done|]. by apply IH.
Qed.

Lemma outcomes_gather {World A : Type} (tasks : list (M World A)) w results w' t :
  task_outcomes tasks w results w' t → gather tasks w = (results, w', t).
Proof.
  induction 1 as [w|task tasks w r w1 t1 results w2 t2 Htask _ IH]; simpl; [done|].
  by rewrite Htask, IH.
Qed.

(** The rows that the pass of lines 64-75 goes through. *)
Lemma rows_lookup (oracles : Oracles) (results : list (result OracleApproval)) i address
    replicas r :
  zip (zip (addresses oracles) (endpoints oracles)) results !! i = Some (address, replicas, r)
  ↔ addresses oracles !! i = Some address ∧ endpoints oracles !! i = Some replicas
    ∧ results !! i = Some r.
Proof.
  split.
  - intros H. apply lookup_zip_with_Some in H as ([a' r'] & y & [= <- <- <-] & Hk & Hr).
    by apply lookup_zip_with_Some in Hk as (a'' & r'' & [= <- <-] & Ha & He).
  - intros (Ha & He & Hr). apply lookup_zip_with_Some. exists (address, replicas), r.
    split; [done|]. split; [|done]. apply lookup_zip_with_Some. by exists address, replicas.
Qed.

Lemma same_success_refl (results : list (result OracleApproval)) :
  Forall2 same_success results results.
Proof. induction results as [|[a|e] results IH]; constructor; done. Qed.

(** Replacing the exception of a failed task leaves a vector of the same successes. *)
Lemma same_success_insert (results : list (result OracleApproval)) i e e' :
  results !! i = Some (Raise e) →
  Forall2 same_success results (<[i := Raise e']> results).
Proof.
  revert i. induction results as [|r results IH]; intros [|i] H; simplify_eq/=.
  - constructor; [done|apply same_success_refl].
  - constructor; [by destruct r|by apply IH].
Qed.

(** C3 does not hold as stated: the chain has moved on, oracle [0xA]'s only replica
    times out and its task ends with [RegistryRootChangedError]; oracle
    [0xB] answers, and with a threshold of one [send_approval_requests]
    returns the aggregate instead of raising the stale-round error. *)
Lemma stale_round_error_not_propagated :
  (gather (map (λ '(address, replicas),
                  send_approval_request_to_replicas (ext := stale_root_world) 1 replicas
                    (asdict the_request))
               (zip (addresses two_oracles) (endpoints two_oracles))) ()).1.1
  = [Raise (RegistryRootChangedError TimeoutError); Return the_approval]
  ∧ (send_approval_requests (ext := stale_root_world) process_oracles_approvals_spec 1
       two_oracles the_request ()).1.1
    = Return {[ "0xB" := the_approval ]}.
Proof. split; vm_compute; reflexivity. Qed.

(** C3, amended.  A stale-round error of an oracle's task does not leave
    [send_approval_requests]: the batch returns what
    [process_oracles_approvals] makes of the approvals collected, the error
    is logged for the oracle's address, the oracle's replicas are among the
    failed endpoints, the oracle contributes no approval (an approval under
    its address comes from another oracle), and the approvals and the failed
    endpoints are the same as if the task had ended with any other
    exception. *)
Theorem stale_round_error_is_collected {World : Type} {ext : Externals World}
    {OraclesApproval : Type}
    (process_oracles_approvals : gmap string OracleApproval → Z → result OraclesApproval)
    (retries : nat) (oracles : Oracles) (request : ApprovalRequest) (w : World)
    (results : list (result OracleApproval)) (w' : World) (t : list event)
    (i : nat) (address : string) (replicas : list string) (e : exn) :
  task_outcomes
    (map (λ '(address, replicas),
            send_approval_request_to_replicas retries replicas (asdict request))
         (zip (addresses oracles) (endpoints oracles))) w results w' t →
  addresses oracles !! i = Some address →
  endpoints oracles !! i = Some replicas →
  results !! i = Some (Raise e) →
  is_stale_round e = true →
  ∃ approvals failed_endpoints warnings,
    send_approval_requests process_oracles_approvals retries oracles request w
    = (process_oracles_approvals approvals (validators_threshold oracles), w',
       t ++ warnings
         ++ [LogApprovals (request_deadline request) (validator_index request)
               (size approvals) (length (endpoints oracles))]
         ++ match failed_endpoints with
            | [] => []
            | _ :: _ => [LogFailedEndpoints failed_endpoints]
            end)
    ∧ LogOracleFailed address e ∈ warnings
    ∧ replicas ⊆ failed_endpoints
    ∧ (∀ approval, approvals !! address = Some approval →
         ∃ j, j ≠ i ∧ addresses oracles !! j = Some address
              ∧ results !! j = Some (Return approval))
    ∧ (∀ e', (collect (zip (zip (addresses oracles) (endpoints oracles))
                         (<[i := Raise e']> results)) ∅ []).1
             = (approvals, failed_endpoints)).
Proof.
  intros Hout Ha He Hr _.
  destruct (collect (zip (zip (addresses oracles) (endpoints oracles)) results) ∅ [])
    as [[approvals failed_endpoints] warnings] eqn:Hc.
  exists approvals, failed_endpoints, warnings. split.
  { unfold send_approval_requests. rewrite (outcomes_gather _ _ _ _ _ Hout).
    unfold aggregate. by rewrite Hc. }
  pose proof (collect_failed _ _ _ _ _ _ Hc) as [Hf Hw]. simpl in Hf.
  assert ((address, replicas, Raise e)
          ∈ zip (zip (addresses oracles) (endpoints oracles)) results) as Hrow.
  { eapply list_elem_of_lookup_2. by apply rows_lookup. }
  split; [|split; [|split]].
  - rewrite Hw. apply list_elem_of_omap. by exists (address, replicas, Raise e).
  - intros endpoint Hin. rewrite Hf. apply list_elem_of_In, in_concat. exists replicas.
    split; [|by apply list_elem_of_In]. apply list_elem_of_In, list_elem_of_omap.
    by exists (address, replicas, Raise e).
  - intros approval Hl.
    destruct (collect_lookup_inv _ _ _ _ _ _ _ _ Hc Hl) as [Hempty|(j & replicas' & Hrow')];
      [by rewrite lookup_empty in Hempty|].
    apply rows_lookup in Hrow' as (Ha' & _ & Hr'). exists j.
    split; [|done]. intros ->. rewrite Hr in Hr'. done.
  - intros e'.
    rewrite <-(collect_same_success (zip (addresses oracles) (endpoints oracles))
                 results (<[i := Raise e']> results) ∅ []) by by eapply same_success_insert.
    by rewrite Hc.
Qed.

Lemma stale_round_error_is_collected_witness :
  (send_approval_requests (ext := stale_root_world) process_oracles_approvals_spec 1
     two_oracles the_request ()).1.1
  = Return {[ "0xB" := the_approval ]}
  ∧ ∃ t approvals failed_endpoints warnings,
      send_approval_requests (ext := stale_root_world) process_oracles_approvals_spec 1
        two_oracles the_request ()
      = (process_oracles_approvals_spec approvals (validators_threshold two_oracles), (),
         t ++ warnings
           ++ [LogApprovals (request_deadline the_request) (validator_index the_request)
                 (size approvals) (length (endpoints two_oracles))]
           ++ match failed_endpoints with
              | [] => []
              | _ :: _ => [LogFailedEndpoints failed_endpoints]
              end)
      ∧ LogOracleFailed "0xA" (RegistryRootChangedError TimeoutError) ∈ warnings
      ∧ ["https://a1"] ⊆ failed_endpoints
      ∧ (∀ approval, approvals !! "0xA" = Some approval →
           ∃ j, j ≠ O ∧ addresses two_oracles !! j = Some "0xA"
                ∧ [Raise (RegistryRootChangedError TimeoutError); Return the_approval] !! j
                  = Some (Return approval))
      ∧ (∀ e', (collect (zip (zip (addresses two_oracles) (endpoints two_oracles))
                           (<[O := Raise e']>
                              [Raise (RegistryRootChangedError TimeoutError);
                               Return the_approval])) ∅ []).1
               = (approvals, failed_endpoints)).
Proof.
  split; [vm_compute; reflexivity|].
  exists (gather (map (λ '(address, replicas),
                         send_approval_request_to_replicas (ext := stale_root_world) 1 replicas
                           (asdict the_request))
                      (zip (addresses two_oracles) (endpoints two_oracles))) ()).2.
  apply (stale_round_error_is_collected (ext := stale_root_world) process_oracles_approvals_spec
           1 two_oracles the_request ()
           [Raise (RegistryRootChangedError TimeoutError); Return the_approval] () _
           O "0xA" ["https://a1"] (RegistryRootChangedError TimeoutError));
    [|reflexivity..].
  apply gather_outcomes. vm_compute. reflexivity.
Defined.

(** C4.  In [send_approval_requests] every oracle's task runs to its own
    outcome, and the approvals mapping holds exactly the approvals of the
    oracles whose task succeeded, whatever the other tasks ended with: an
    address that is not repeated gets its oracle's approval; every entry of
    the mapping comes from a successful task; the failed endpoints are the
    replicas of the failed oracles, in order, each of which is logged; and
    the mapping is what goes to [process_oracles_approvals], whose answer is
    the answer of the batch. *)
Theorem oracle_failures_are_isolated {World : Type} {ext : Externals World}
    {OraclesApproval : Type}
    (process_oracles_approvals : gmap string OracleApproval → Z → result OraclesApproval)
    (retries : nat) (oracles : Oracles) (request : ApprovalRequest) (w : World) :
  ∃ results w' t approvals failed_endpoints warnings,
    task_outcomes
      (map (λ '(address, replicas),
              send_approval_request_to_replicas retries replicas (asdict request))
           (zip (addresses oracles) (endpoints oracles))) w results w' t
    ∧ send_approval_requests process_oracles_approvals retries oracles request w
      = (process_oracles_approvals approvals (validators_threshold oracles), w',
         t ++ warnings
           ++ [LogApprovals (request_deadline request) (validator_index request)
                 (size approvals) (length (endpoints oracles))]
           ++ match failed_endpoints with
              | [] => []
              | _ :: _ => [LogFailedEndpoints failed_endpoints]
              end)
    ∧ (NoDup (addresses oracles) →
       ∀ i address replicas approval,
         addresses oracles !! i = Some address →
         endpoints oracles !! i = Some replicas →
         results !! i = Some (Return approval) →
         approvals !! address = Some approval)
    ∧ (∀ address approval,
         approvals !! address = Some approval →
         ∃ i, addresses oracles !! i = Some address ∧ results !! i = Some (Return approval))
    ∧ failed_endpoints
      = concat (omap (λ row, match row.2 with Raise _ => Some row.1.2 | Return _ => None end)
                  (zip (zip (addresses oracles) (endpoints oracles)) results))
    ∧ (∀ i address replicas e,
         addresses oracles !! i = Some address →
         endpoints oracles !! i = Some replicas →
         results !! i = Some (Raise e) →
         replicas ⊆ failed_endpoints ∧ LogOracleFailed address e ∈ warnings).
Proof.
  destruct (gather (map (λ '(address, replicas),
                           send_approval_request_to_replicas retries replicas (asdict request))
                        (zip (addresses oracles) (endpoints oracles))) w)
    as [[results w'] t] eqn:Hg.
  destruct (collect (zip (zip (addresses oracles) (endpoints oracles)) results) ∅ [])
    as [[approvals failed_endpoints] warnings] eqn:Hc.
  exists results, w', t, approvals, failed_endpoints, warnings.
  split; [by apply gather_outcomes|]. split.
  { unfold send_approval_requests. rewrite Hg. unfold aggregate. by rewrite Hc. }
  pose proof (collect_failed _ _ _ _ _ _ Hc) as [Hf Hw]. simpl in Hf.
  split; [|split; [|split; [done|]]].
  - intros Hnodup i address replicas approval Ha He Hr.
    eapply (collect_lookup_success _ _ _ _ _ _ i address replicas approval Hc).
    + by apply rows_lookup.
    + intros j replicas' approval' Hj Hrow.
      apply rows_lookup in Hrow as (Ha' & _ & _).
      pose proof (NoDup_lookup _ _ _ _ Hnodup Ha Ha'). lia.
  - intros address approval Hl.
    destruct (collect_lookup_inv _ _ _ _ _ _ _ _ Hc Hl) as [Hempty|(i & replicas & Hrow)];
      [by rewrite lookup_empty in Hempty|].
    apply rows_lookup in Hrow as (Ha' & _ & Hr). by exists i.
  - intros i address replicas e Ha He Hr.
    assert ((address, replicas, Raise e)
            ∈ zip (zip (addresses oracles) (endpoints oracles)) results) as Hrow.
    { eapply list_elem_of_lookup_2. by apply rows_lookup. }
    split.
    + intros endpoint Hin. rewrite Hf. apply list_elem_of_In, in_concat. exists replicas.
      split; [|by apply list_elem_of_In]. apply list_elem_of_In, list_elem_of_omap.
      by exists (address, replicas, Raise e).
    + rewrite Hw. apply list_elem_of_omap. by exists (address, replicas, Raise e).
Qed.

(** ** Keystores *)

Section KeystoreFacts.
Context {crypto : KeystoreCrypto}.

Lemma list_keystore_loop_spec fs settings names files :
  list_keystore_loop fs settings names = Return files →
  map name files = List.filter (is_keystore_name fs settings) names
  ∧ Forall (λ kf, _load_keystores_password fs (password_file_of fs settings (name kf))
                  = Return (password kf)) files.
Proof.
  revert files. induction names as [|f names IH]; intros files H; simpl in H.
  - by simplify_eq.
  - simpl. destruct (is_keystore_name fs settings f); simpl in H; [|by apply IH].
    destruct (_load_keystores_password fs (password_file_of fs settings f))
      as [pw|e] eqn:Hpw; [|done]. simpl in H.
    destruct (list_keystore_loop fs settings names) as [res|e]; [|done].
    simpl in H. simplify_eq. destruct (IH _ eq_refl) as [Hn Hp].
    split; [simpl; by f_equal|]. by constructor.
Qed.

(** Every submission goes through when no unit fails. *)
Lemma apply_async_all_ok {A} closing i (units : list (result A)) :
  Forall (λ u, is_Return u = true) units →
  apply_async_all closing i false units = Return units.
Proof.
  intros H. revert i. induction H as [|u units Hu H IH]; intros i; [done|].
  simpl. rewrite Hu. simpl. by rewrite IH.
Qed.

(** The submissions return the results of all the units or raise. *)
Lemma apply_async_all_Return {A} closing i failed (units rs : list (result A)) :
  apply_async_all closing i failed units = Return rs → rs = units.
Proof.
  revert i failed rs. induction units as [|u units IH]; intros i failed rs H; simpl in H.
  - by simplify_eq.
  - destruct (failed && closing i); [done|].
    destruct (apply_async_all closing (S i) (failed || negb (is_Return u)) units)
      as [rs'|e] eqn:Hrest; [|done].
    simpl in H. simplify_eq. f_equal. by eapply IH.
Qed.

Lemma collect_keystores_ok pairs keystores :
  collect_keystores (map Return pairs) keystores
  = Return (foldl (λ m '(pub_key, priv_key), <[pub_key := priv_key]> m) keystores pairs).
Proof.
  revert keystores. induction pairs as [|[pub_key priv_key] pairs IH]; intros keystores; [done|].
  simpl. apply IH.
Qed.

Lemma collect_keystores_Raise results keystores :
  Exists (λ u, is_Return u = false) results →
  ∃ e, collect_keystores results keystores = Raise e.
Proof.
  intros H. revert keystores.
  induction H as [[[pub_key priv_key]|e] results Hu|[[pub_key priv_key]|e] results H IH];
    intros keystores; simpl; try done; destruct e; eauto.
Qed.

Lemma all_Return_map {A} (units : list (result A)) :
  Forall (λ u, is_Return u = true) units → ∃ xs, units = map Return xs.
Proof.
  induction 1 as [|[x|e] units Hu H [xs ->]]; [by exists []| |done].
  by exists (x :: xs).
Qed.

Lemma all_Return_or_not {A} (units : list (result A)) :
  Forall (λ u, is_Return u = true) units ∨ Exists (λ u, is_Return u = false) units.
Proof.
  induction units as [|[x|e] units [IH|IH]];
    first [ by left; constructor
          | by right; apply Exists_cons_hd
          | by right; apply Exists_cons_tl ].
Qed.
End KeystoreFacts.

(** A sidecar that is a regular file but cannot be read makes the listing
    raise the error of reading it: the default password file is no fallback. *)
Example unreadable_sidecar_raises :
  isfile locked_sidecar_fs "/data/keystores/keystore1.txt" = true
  ∧ list_keystore_files locked_sidecar_fs scenario_settings
    = Raise (OSError "/data/keystores/keystore1.txt").
Proof. split; reflexivity. Qed.

(** A listing that fails makes the load fail. *)
Lemma load_keystores_listing_fails {crypto : KeystoreCrypto} (fs : FileSystem)
    (settings : Settings) (closing : nat → bool) (e : exn) :
  list_keystore_files fs settings = Raise e → load_keystores fs settings closing = Raise e.
Proof. unfold load_keystores. by intros ->. Qed.

(** C8.  Whatever the timing of the pool: when the unit of any keystore file
    fails, [load_keystores] raises; a mapping is returned only when every
    unit has succeeded, and it is then built from the keys of all of them;
    and when every unit succeeds, a mapping is returned provided the pool can
    be created, which takes a pool size of at least one. *)
Theorem load_keystores_atomic {crypto : KeystoreCrypto} (fs : FileSystem) (settings : Settings)
    (closing : nat → bool) (files : list KeystoreFile) :
  list_keystore_files fs settings = Return files →
  (Exists (λ keystore_file,
             is_Return (_process_keystore_file fs keystore_file (keystores_dir settings)) = false)
          files →
   ∃ e, load_keystores fs settings closing = Raise e)
  ∧ (∀ keystores,
       load_keystores fs settings closing = Return keystores →
       ∃ pairs,
         map (λ keystore_file, _process_keystore_file fs keystore_file (keystores_dir settings))
             files = map Return pairs
         ∧ keystores
           = foldl (λ m '(pub_key, priv_key), <[pub_key := priv_key]> m) ∅ pairs)
  ∧ (Forall (λ keystore_file,
               is_Return (_process_keystore_file fs keystore_file (keystores_dir settings)) = true)
            files →
     (1 ≤ pool_size settings)%nat →
     ∃ keystores, load_keystores fs settings closing = Return keystores).
Proof.
  intros Hfiles. unfold load_keystores. rewrite Hfiles. simpl.
  destruct (Pool (pool_size settings)) as [[]|e0] eqn:Hpool; simpl;
    [|split; [by eauto|split; [done|]]; intros _ Hsize; unfold Pool in Hpool;
      by rewrite (proj2 (Nat.ltb_ge _ _) Hsize) in Hpool].
  set (units := map (λ keystore_file,
                       _process_keystore_file fs keystore_file (keystores_dir settings)) files).
  assert (∀ P : result (string * bytes) → Prop,
            Exists (λ kf, P (_process_keystore_file fs kf (keystores_dir settings))) files
            → Exists P units) as Hex.
  { intros P H. apply Exists_fmap. exact H. }
  assert (∀ P : result (string * bytes) → Prop,
            Forall (λ kf, P (_process_keystore_file fs kf (keystores_dir settings))) files
            → Forall P units) as Hall.
  { intros P H. apply Forall_fmap. exact H. }
  split; [|split].
  - intros Hfail. apply (Hex (λ u, is_Return u = false)) in Hfail.
    destruct (apply_async_all closing 0 false units) as [rs|e] eqn:Hsub; simpl; [|by eauto].
    apply apply_async_all_Return in Hsub as ->. by apply collect_keystores_Raise.
  - intros keystores Hload.
    destruct (apply_async_all closing 0 false units) as [rs|e] eqn:Hsub; simpl in Hload; [|done].
    apply apply_async_all_Return in Hsub as ->.
    destruct (all_Return_or_not units) as [Hok|Hfail].
    + destruct (all_Return_map units Hok) as [pairs Hpairs]. exists pairs. split; [done|].
      rewrite Hpairs, collect_keystores_ok in Hload. by simplify_eq.
    + destruct (collect_keystores_Raise units ∅ Hfail) as [e He]. congruence.
  - intros Hok _. apply (Hall (λ u, is_Return u = true)) in Hok.
    rewrite (apply_async_all_ok _ _ _ Hok). simpl.
    destruct (all_Return_map units Hok) as [pairs ->]. rewrite collect_keystores_ok. eauto.
Qed.

Lemma load_keystores_atomic_witness :
  (∃ e, load_keystores (crypto := toy_crypto) corrupted_fs scenario_settings (λ _, false)
        = Raise e)
  ∧ load_keystores (crypto := toy_crypto) corrupted_fs scenario_settings (λ _, false)
    = Raise (RuntimeError "Failed to load keystores"
               (Some (KeystoreException
                        ("Invalid keystore format in file " +:+ dquote +:+ "keystore3.json"
                           +:+ dquote)))).
Proof.
  split; [|reflexivity].
  apply (load_keystores_atomic (crypto := toy_crypto) corrupted_fs scenario_settings (λ _, false)
           [{| name := "keystore1.json"; password := "abc" |};
            {| name := "keystore2.json"; password := "xyz" |};
            {| name := "keystore3.json"; password := "xyz" |}] eq_refl).
  do 2 apply Exists_cons_tl. apply Exists_cons_hd. reflexivity.
Defined.

(** C10.  Every keystore file that [list_keystore_files] returns is an entry
    of the directory that passes the name test, in the directory's order, and
    carries the stripped text of its sidecar (the name with [.json] replaced
    by [.txt], in the password directory) when that is a file, and of the
    default password file otherwise.  In the scenario of the spec
    [keystore1.json] resolves to [abc] and [keystore2.json] to [xyz]. *)
Theorem keystore_password_resolution (fs : FileSystem) (settings : Settings)
    (files : list KeystoreFile) :
  list_keystore_files fs settings = Return files →
  ∃ names,
    listdir fs (keystores_dir settings) = Return names
    ∧ map name files = List.filter (is_keystore_name fs settings) names
    ∧ ∀ keystore_file, keystore_file ∈ files →
        if isfile fs (path_join (keystores_password_dir settings)
                        (str_replace (name keystore_file) ".json" ".txt"))
        then ∃ text, file_text fs (path_join (keystores_password_dir settings)
                                     (str_replace (name keystore_file) ".json" ".txt"))
                     = Return text
                     ∧ password keystore_file = strip text
        else ∃ text, file_text fs (keystores_password_file settings) = Return text
                     ∧ password keystore_file = strip text.
Proof.
  unfold list_keystore_files. intros H.
  destruct (listdir fs (keystores_dir settings)) as [names|e]; [|done]. simpl in H.
  exists names. split; [done|].
  apply list_keystore_loop_spec in H as [Hnames Hpw]. split; [done|].
  intros kf Hin. apply (proj1 (Forall_forall _ _) Hpw) in Hin.
  unfold _load_keystores_password, password_file_of in Hin.
  destruct (isfile fs (path_join (keystores_password_dir settings)
                         (str_replace (name kf) ".json" ".txt"))).
  - destruct (file_text fs (path_join (keystores_password_dir settings)
                              (str_replace (name kf) ".json" ".txt"))) as [text|e]; [|done].
    exists text. split; [done|]. by simplify_eq/=.
  - destruct (file_text fs (keystores_password_file settings)) as [text|e]; [|done].
    exists text. split; [done|]. by simplify_eq/=.
Qed.

Lemma keystore_password_resolution_witness :
  list_keystore_files scenario_fs scenario_settings
  = Return [{| name := "keystore1.json"; password := "abc" |};
            {| name := "keystore2.json"; password := "xyz" |}]
  ∧ ∃ names,
      listdir scenario_fs (keystores_dir scenario_settings) = Return names
      ∧ ["keystore1.json"; "keystore2.json"]
        = List.filter (is_keystore_name scenario_fs scenario_settings) names
      ∧ ∀ keystore_file,
          keystore_file ∈ [{| name := "keystore1.json"; password := "abc" |};
                           {| name := "keystore2.json"; password := "xyz" |}] →
          if isfile scenario_fs
               (path_join (keystores_password_dir scenario_settings)
                  (str_replace (name keystore_file) ".json" ".txt"))
          then ∃ text, file_text scenario_fs
                         (path_join (keystores_password_dir scenario_settings)
                            (str_replace (name keystore_file) ".json" ".txt"))
                       = Return text
                       ∧ password keystore_file = strip text
          else ∃ text, file_text scenario_fs (keystores_password_file scenario_settings)
                       = Return text
                       ∧ password keystore_file = strip text.
Proof.
  split; [reflexivity|].
  apply (keystore_password_resolution scenario_fs scenario_settings
           [{| name := "keystore1.json"; password := "abc" |};
            {| name := "keystore2.json"; password := "xyz" |}] eq_refl).
Defined.

(** ** The validators tree *)

Section TreeFacts.
Context {collab : TreeCollaborators}.

Lemma add_0x_prefix_spec v s' :
  add_0x_prefix v = Return s' →
  ∃ s, v = PStr s ∧ s' = (if is_0x_prefixed s then s else "0x" +:+ s)
       ∧ is_0x_prefixed s' = true.
Proof.
  destruct v as [|s| | |]; simpl; intros H; simplify_eq.
  exists s. split; [done|]. split; [done|].
  destruct (is_0x_prefixed s) eqn:Hp; [done|]. by destruct s.
Qed.

(** The record built at position [k] of the rest of the list sits at
    position [k] of the result and carries the index [i + k]. *)
Lemma validators_loop_spec credentials i deposit_data leaves validators :
  validators_loop credentials i deposit_data = Return (leaves, validators) →
  length validators = length deposit_data
  ∧ ∀ k data, deposit_data !! k = Some data →
      ∃ pubkey sig pk sg leaf,
        dict_get data "pubkey" = Some pubkey ∧ add_0x_prefix pubkey = Return pk
        ∧ dict_get data "signature" = Some sig ∧ add_0x_prefix sig = Return sg
        ∧ validators !! k
          = Some {| deposit_data_index := Z.of_nat (i + k); public_key := pk;
                    validator_signature := sg |}
        ∧ encode_tx_validator credentials
            {| deposit_data_index := Z.of_nat (i + k); public_key := pk;
               validator_signature := sg |} = Return leaf
        ∧ leaves !! k = Some (leaf, Z.of_nat (i + k)).
Proof.
  revert i leaves validators.
  induction deposit_data as [|data rest IH]; intros i leaves validators H; simpl in H.
  - simplify_eq. split; [done|]. by intros k data [=].
  - unfold dict_getitem in H.
    destruct (dict_get data "pubkey") as [pubkey|] eqn:Hpk; [|done]. simpl in H.
    destruct (add_0x_prefix pubkey) as [pk|e] eqn:Hpk'; [|done]. simpl in H.
    destruct (dict_get data "signature") as [sig|] eqn:Hsg; [|done]. simpl in H.
    destruct (add_0x_prefix sig) as [sg|e] eqn:Hsg'; [|done]. simpl in H.
    destruct (encode_tx_validator _ _) as [leaf|e] eqn:Hleaf; [|done]. simpl in H.
    destruct (validators_loop credentials (S i) rest) as [[leaves' validators']|e] eqn:Hrest;
      [|done].
    simpl in H. simplify_eq. destruct (IH _ _ _ Hrest) as [Hlen Hk].
    split; [simpl; by f_equal|].
    intros [|k] data' Hdata; simplify_eq/=.
    + exists pubkey, sig, pk, sg, leaf. by rewrite Nat.add_0_r.
    + destruct (Hk _ _ Hdata) as (pubkey' & sig' & pk' & sg' & leaf' & H').
      exists pubkey', sig', pk', sg', leaf'. by rewrite Nat.add_succ_r.
Qed.

Lemma validators_loop_equiv credentials i d1 d2 :
  Forall2 dict_equiv d1 d2 →
  validators_loop credentials i d1 = validators_loop credentials i d2.
Proof.
  intros H. revert i. induction H as [|data1 data2 d1 d2 Hd H IH]; intros i; [done|].
  simpl. unfold dict_getitem. rewrite !Hd. by rewrite IH.
Qed.

(** Fields in another order, the same record. *)
Lemma dict_equiv_swap k1 v1 k2 v2 (d : dict) :
  k1 ≠ k2 → dict_equiv ((k1, v1) :: (k2, v2) :: d) ((k2, v2) :: (k1, v1) :: d).
Proof.
  intros Hne key. simpl.
  destruct (String.eqb_spec k1 key) as [->|], (String.eqb_spec k2 key) as [->|]; done.
Qed.

Lemma dict_equiv_skip k v (d1 d2 : dict) :
  dict_equiv d1 d2 → dict_equiv ((k, v) :: d1) ((k, v) :: d2).
Proof. intros H key. simpl. by rewrite H. Qed.

Lemma dict_equiv_trans (d1 d2 d3 : dict) :
  dict_equiv d1 d2 → dict_equiv d2 d3 → dict_equiv d1 d3.
Proof. intros H1 H2 key. by rewrite H1. Qed.
End TreeFacts.

(** C7.  The tree is a function of the vault address and the deposit entries
    alone: two runs on inputs that are equal as Python values (the same
    records in the same order, the fields of a record in any order) give the
    same outcome, hence the same root, the same validators and the same proof
    for every leaf. *)
Theorem generate_validators_tree_deterministic {collab : TreeCollaborators}
    (vault : string) (deposit_data1 deposit_data2 : list dict) :
  Forall2 dict_equiv deposit_data1 deposit_data2 →
  generate_validators_tree vault deposit_data1 = generate_validators_tree vault deposit_data2
  ∧ ∀ tree1 validators1 tree2 validators2,
      generate_validators_tree vault deposit_data1 = Return (tree1, validators1) →
      generate_validators_tree vault deposit_data2 = Return (tree2, validators2) →
      root tree1 = root tree2 ∧ validators1 = validators2
      ∧ ∀ i, get_proof tree1 i = get_proof tree2 i.
Proof.
  intros Heq.
  assert (generate_validators_tree vault deposit_data1
          = generate_validators_tree vault deposit_data2) as Hsame.
  { unfold generate_validators_tree. by rewrite (validators_loop_equiv _ _ _ _ Heq). }
  split; [done|].
  intros tree1 validators1 tree2 validators2 H1 H2. rewrite Hsame in H1.
  rewrite H1 in H2. by simplify_eq.
Qed.

Lemma generate_validators_tree_deterministic_witness :
  is_Return (generate_validators_tree (collab := toy_collaborators) "0xvault" deposit_data_a) = true
  ∧ generate_validators_tree (collab := toy_collaborators) "0xvault" deposit_data_a
    = generate_validators_tree (collab := toy_collaborators) "0xvault" deposit_data_b
  ∧ ∀ tree1 validators1 tree2 validators2,
      generate_validators_tree (collab := toy_collaborators) "0xvault" deposit_data_a
      = Return (tree1, validators1) →
      generate_validators_tree (collab := toy_collaborators) "0xvault" deposit_data_b
      = Return (tree2, validators2) →
      root tree1 = root tree2 ∧ validators1 = validators2
      ∧ ∀ i, get_proof tree1 i = get_proof tree2 i.
Proof.
  split; [reflexivity|].
  apply (generate_validators_tree_deterministic (collab := toy_collaborators) "0xvault"
           deposit_data_a deposit_data_b).
  repeat constructor.
  - by apply dict_equiv_swap.
  - eapply dict_equiv_trans; [by apply dict_equiv_swap|].
    eapply dict_equiv_trans; [apply dict_equiv_skip; by apply dict_equiv_swap|].
    by apply dict_equiv_swap.
Defined.

(** C9.  In the list that [generate_validators_tree] returns, the validator
    at position [i] has [deposit_data_index] [i], and its [public_key] and
    [signature] are the entry's [pubkey] and [signature] strings given their
    [0x] prefix: unchanged when they carry one, with [0x] put in front
    otherwise. *)
Theorem validator_index_is_position {collab : TreeCollaborators}
    (vault : string) (deposit_data : list dict)
    (t : StandardMerkleTree) (validators : list Validator) :
  generate_validators_tree vault deposit_data = Return (t, validators) →
  length validators = length deposit_data
  ∧ ∀ i data, deposit_data !! i = Some data →
      ∃ pubkey sig,
        dict_get data "pubkey" = Some (PStr pubkey)
        ∧ dict_get data "signature" = Some (PStr sig)
        ∧ validators !! i
          = Some {| deposit_data_index := Z.of_nat i;
                    public_key := if is_0x_prefixed pubkey then pubkey else "0x" +:+ pubkey;
                    validator_signature := if is_0x_prefixed sig then sig else "0x" +:+ sig |}
        ∧ add_0x_prefix (PStr pubkey)
          = Return (if is_0x_prefixed pubkey then pubkey else "0x" +:+ pubkey)
        ∧ add_0x_prefix (PStr sig) = Return (if is_0x_prefixed sig then sig else "0x" +:+ sig)
        ∧ is_0x_prefixed (if is_0x_prefixed pubkey then pubkey else "0x" +:+ pubkey) = true
        ∧ is_0x_prefixed (if is_0x_prefixed sig then sig else "0x" +:+ sig) = true.
Proof.
  unfold generate_validators_tree. intros H.
  destruct (validators_loop (get_eth1_withdrawal_credentials vault) 0 deposit_data)
    as [[leaves validators']|e] eqn:Hloop; [|done].
  simpl in H. destruct (StandardMerkleTree_of leaves) as [t'|e]; [|done].
  simpl in H. simplify_eq.
  destruct (validators_loop_spec _ _ _ _ _ Hloop) as [Hlen Hk]. split; [done|].
  intros i data Hdata.
  destruct (Hk _ _ Hdata) as (pubkey & sig & pk & sg & leaf & Hpk & Hpk' & Hsg & Hsg' & Hv & _).
  apply add_0x_prefix_spec in Hpk' as (s1 & -> & -> & Hp1).
  apply add_0x_prefix_spec in Hsg' as (s2 & -> & -> & Hp2).
  exists s1, s2. by repeat split.
Qed.

Lemma validator_index_is_position_witness :
  ∃ t validators,
    generate_validators_tree (collab := toy_collaborators) "0xvault" deposit_data_b
    = Return (t, validators)
    ∧ validators
      = [{| deposit_data_index := 0; public_key := "0xaa01"; validator_signature := "0xbb01" |};
         {| deposit_data_index := 1; public_key := "0xaa02"; validator_signature := "0xbb02" |}]
    ∧ length validators = length deposit_data_b
    ∧ ∀ i data, deposit_data_b !! i = Some data →
        ∃ pubkey sig,
          dict_get data "pubkey" = Some (PStr pubkey)
          ∧ dict_get data "signature" = Some (PStr sig)
          ∧ validators !! i
            = Some {| deposit_data_index := Z.of_nat i;
                      public_key := if is_0x_prefixed pubkey then pubkey else "0x" +:+ pubkey;
                      validator_signature := if is_0x_prefixed sig then sig else "0x" +:+ sig |}
          ∧ add_0x_prefix (PStr pubkey)
            = Return (if is_0x_prefixed pubkey then pubkey else "0x" +:+ pubkey)
          ∧ add_0x_prefix (PStr sig) = Return (if is_0x_prefixed sig then sig else "0x" +:+ sig)
          ∧ is_0x_prefixed (if is_0x_prefixed pubkey then pubkey else "0x" +:+ pubkey) = true
          ∧ is_0x_prefixed (if is_0x_prefixed sig then sig else "0x" +:+ sig) = true.
Proof.
  eexists _, _. split; [reflexivity|]. split; [reflexivity|].
  eapply (validator_index_is_position (collab := toy_collaborators) "0xvault" deposit_data_b).
  reflexivity.
Defined.

(** * Further properties of the code *)

(** ** The approval client *)

Section ClientExtras.
Context {World : Type} {ext : Externals World}.

Lemma retry_not_caught {A} retries (f : M World A) w r w' t :
  f w = (r, w', t) →
  (∀ e, r = Raise e → is_aiohttp_error e = false) →
  retry_aiohttp_errors retries f w = (r, w', t).
Proof.
  intros Hf Hn. destruct retries as [|n]; [done|]. simpl. unfold try_except. rewrite Hf.
  destruct r as [a|e]; [done|]. by rewrite (Hn e eq_refl).
Qed.

(** An exception that is not an aiohttp error, raised by the [try] block or
    by the construction of the approval, is caught nowhere. *)
Lemma attempted_uncaught payload endpoint r t :
  attempted payload endpoint r t →
  ∀ t0 endpoint' reply t1 e,
    t = t0 ++ EvPost endpoint' reply :: t1 →
    result_bind (try_block_result reply) make_approval = Raise e →
    is_aiohttp_error e = false →
    t1 = [] ∧ r = Raise e.
Proof.
  intros Ha t0 endpoint' reply' t1 e0 Ht Hd Hn.
  destruct Ha as [reply data Hdata|reply e He Hne|reply e e' tl He Hae Hc].
  - split_trace. rewrite Hdata in Hd. simpl in Hd. by rewrite Hd.
  - split_trace. rewrite He in Hd. simpl in Hd. by simplify_eq.
  - destruct (bad_request_log_cases endpoint reply) as [Hb|[body Hb]];
      rewrite Hb in Ht; destruct Hc; simpl in Ht; split_trace;
      rewrite He in Hd; simpl in Hd; simplify_eq; congruence.
Qed.

Lemma uncaught_closed retries replicas payload w r w' t :
  send_approval_request_to_replicas retries replicas payload w = (r, w', t) →
  ∀ t0 endpoint reply t1 e,
    t = t0 ++ EvPost endpoint reply :: t1 →
    result_bind (try_block_result reply) make_approval = Raise e →
    is_aiohttp_error e = false →
    t1 = [] ∧ r = Raise e.
Proof.
  refine (replicas_closed payload
            (λ r t, ∀ t0 endpoint reply t1 e,
               t = t0 ++ EvPost endpoint reply :: t1 →
               result_bind (try_block_result reply) make_approval = Raise e →
               is_aiohttp_error e = false → t1 = [] ∧ r = Raise e)
            _ _ _ _ retries replicas w r w' t).
  - intros endpoint r0 t0 Ha. by eapply attempted_uncaught.
  - intros e t0 endpoint reply t1 e0 Ht. by destruct t0.
  - intros e t1 r0 t2 H1 He H2 t0 endpoint reply tl e0 Ht Hd Hn.
    apply app_eq_inv in Ht as [(k & -> & Hk)|(k & -> & ->)].
    + destruct k as [|ev' k]; simplify_eq/=; [by eapply (H2 [])|].
      destruct (H1 _ _ _ _ _ eq_refl Hd Hn) as [_ [= <-]]. congruence.
    + by eapply H2.
  - intros e endpoint r0 t0 _ H t1 endpoint' reply tl e0 Ht Hd Hn.
    destruct t1 as [|ev' t1]; simplify_eq/=. by eapply H.
Qed.

Lemma prefix_of_perm_bounds (pass shuffled replicas : list string) :
  shuffled ≡ₚ replicas → pass `prefix_of` shuffled →
  (length pass ≤ length replicas)%nat ∧ ∀ endpoint, endpoint ∈ pass → endpoint ∈ replicas.
Proof.
  intros Hperm [k Hk]. split.
  - rewrite <-Hperm, Hk, length_app. lia.
  - intros endpoint Hin. rewrite <-Hperm, Hk. apply elem_of_app. by left.
Qed.
End ClientExtras.

(** X1.  With no replicas, [send_approval_request_to_replicas] raises
    [RuntimeError('Failed to get response from replicas')]: nothing is posted,
    the world is untouched, and the failure is not retried. *)
Theorem no_replicas_runtime_error {World : Type} {ext : Externals World}
    (retries : nat) (payload : dict) (w : World) :
  send_approval_request_to_replicas retries [] payload w
  = (Raise (RuntimeError "Failed to get response from replicas" None), w, []).
Proof.
  unfold send_approval_request_to_replicas. by apply retry_not_caught; [|intros e [= <-]].
Qed.

(** X2.  A reply that makes an attempt raise anything but a [ClientError] or
    a [TimeoutError] (a body that is not JSON, a body that lacks a field of
    the approval, a signature that is not hex) ends the oracle's task on the
    spot with that exception: no chain state is read, no further replica is
    posted to, nothing is retried. *)
Theorem malformed_reply_ends_task {World : Type} {ext : Externals World}
    (retries : nat) (replicas : list string) (payload : dict) (w : World)
    (r : result OracleApproval) (w' : World) (t t0 : list event)
    (endpoint : string) (reply : result Response) (t1 : list event) (e : exn) :
  send_approval_request_to_replicas retries replicas payload w = (r, w', t) →
  t = t0 ++ EvPost endpoint reply :: t1 →
  result_bind (try_block_result reply) make_approval = Raise e →
  is_aiohttp_error e = false →
  t1 = [] ∧ r = Raise e.
Proof. intros Hrun. by eapply uncaught_closed. Qed.

Lemma malformed_reply_ends_task_witness :
  (send_approval_request_to_replicas (ext := malformed_world) 1
     ["https://m1"; "https://b1"] (asdict the_request) ()).1.1
  = Raise (ValueError "JSONDecodeError")
  ∧ (send_approval_request_to_replicas (ext := malformed_world) 1
       ["https://m2"; "https://b1"] (asdict the_request) ()).1.1
    = Raise (KeyError "signature")
  ∧ ([] = [] :> list event
     ∧ Raise (KeyError "signature") = Raise (A := OracleApproval) (KeyError "signature")).
Proof.
  split; [reflexivity|]. split; [reflexivity|].
  apply (malformed_reply_ends_task (ext := malformed_world) 1
           ["https://m2"; "https://b1"] (asdict the_request) ()
           (Raise (KeyError "signature")) ()
           [EvPost "https://m2"
              (Return {| status := 200;
                         json := Return (PDict [("ipfs_hash", PStr "QmHash");
                                                ("deadline", PInt 1700000000)]) |})]
           [] "https://m2"
           (Return {| status := 200;
                      json := Return (PDict [("ipfs_hash", PStr "QmHash");
                                             ("deadline", PInt 1700000000)]) |})
           [] (KeyError "signature")); reflexivity.
Defined.

(** X3.  An oracle's task posts only to replicas of that oracle, and at most
    [(retries + 1) * len(replicas)] times. *)
Theorem posts_bounded {World : Type} {ext : Externals World}
    (retries : nat) (replicas : list string) (payload : dict) (w : World) :
  (length (posts (send_approval_request_to_replicas retries replicas payload w).2)
   ≤ S retries * length replicas)%nat
  ∧ ∀ endpoint,
      endpoint ∈ posts (send_approval_request_to_replicas retries replicas payload w).2 →
      endpoint ∈ replicas.
Proof.
  destruct (send_approval_request_to_replicas retries replicas payload w)
    as [[r w'] t] eqn:Hrun. simpl.
  apply replicas_passes in Hrun as (passes & -> & Hlen & Hall).
  assert ((length (concat passes) ≤ length passes * length replicas)%nat
          ∧ ∀ endpoint, endpoint ∈ concat passes → endpoint ∈ replicas) as [Hn Hin].
  { clear Hlen. induction Hall as [|pass passes (shuffled & Hperm & Hpre) Hall [IHn IHin]].
    - split; [done|]. by intros endpoint Hin%elem_of_nil.
    - destruct (prefix_of_perm_bounds _ _ _ Hperm Hpre) as [Hl Hm]. simpl. split.
      + rewrite length_app. lia.
      + intros endpoint [Hin|Hin]%elem_of_app; auto. }
  split; [|done]. nia.
Qed.

Section AttemptExtras.
Context {World : Type} {ext : Externals World}.

Lemma send_approval_request_uncaught endpoint payload w reply w1 :
  session_post endpoint payload w = (reply, w1) →
  (∀ e, try_block_result reply = Raise e → is_aiohttp_error e = false) →
  send_approval_request endpoint payload w
  = (result_bind (try_block_result reply) make_approval, w1, [EvPost endpoint reply]).
Proof.
  intros Hpost Hn. unfold send_approval_request.
  unfold bind at 1. unfold try_except. rewrite (try_block_run _ _ _ _ _ Hpost).
  rewrite (bad_request_log_nil endpoint reply _ eq_refl Hn).
  destruct (try_block_result reply) as [data|e] eqn:Hd; simpl.
  - done.
  - by rewrite (Hn e eq_refl).
Qed.

Lemma classified_no_posts payload e e' tl :
  classified payload e e' tl → posts tl = [] ∧ tl ≠ [].
Proof. by destruct 1. Qed.

(** The loop logs every attempt it makes, except possibly the one it ends on. *)
Lemma for_endpoints_logged payload order last_error w r w' t :
  for_endpoints payload order last_error w = (r, w', t) →
  (failures t).*2 `prefix_of` posts t
  ∧ (length (posts t) ≤ S (length (failures t)))%nat.
Proof.
  revert last_error w r w' t.
  induction order as [|endpoint rest IH]; intros last_error w r w' t H.
  - simpl in H. destruct last_error; unfold raise in H; simplify_eq;
      (split; [apply prefix_nil|simpl; lia]).
  - apply for_endpoints_cons_inv in H
      as [[Ha _]|(e & ta & w1 & t' & Ha & He & Hrest & ->)].
    + apply attempted_posts in Ha as [-> ->]. simpl. split; [apply prefix_nil|lia].
    + apply attempted_posts in Ha as [Hp Hf]. destruct (IH _ _ _ _ _ Hrest) as [Hpre Hlen].
      rewrite posts_app, failures_app, Hp, Hf. simpl. split; [by apply prefix_cons|lia].
Qed.
End AttemptExtras.

(** X4.  One call of [send_approval_request] posts exactly once, to the
    endpoint it is given, and the reply is the world's.  It goes on to read
    the chain only when the [try] block raised an aiohttp error, and then it
    always ends in an exception; an approval it returns is the one the reply
    amounts to, with no chain state read. *)
Theorem one_post_per_attempt {World : Type} {ext : Externals World}
    (endpoint : string) (payload : dict) (w : World) :
  ∃ tl,
    (send_approval_request endpoint payload w).2
    = EvPost endpoint (session_post endpoint payload w).1 :: tl
    ∧ posts tl = []
    ∧ (tl ≠ [] →
       (∃ e, try_block_result (session_post endpoint payload w).1 = Raise e
             ∧ is_aiohttp_error e = true)
       ∧ ∃ e', (send_approval_request endpoint payload w).1.1 = Raise e')
    ∧ (∀ a, (send_approval_request endpoint payload w).1.1 = Return a →
         tl = [] ∧ approval_of_reply (session_post endpoint payload w).1 = Some a).
Proof.
  destruct (session_post endpoint payload w) as [reply w1] eqn:Hpost. simpl.
  destruct (try_block_result reply) as [data|e] eqn:Hd.
  - rewrite (send_approval_request_uncaught _ _ _ _ _ Hpost); [|by rewrite Hd].
    exists []. simpl. rewrite Hd. simpl.
    split; [done|]. split; [done|]. split; [done|].
    intros a Ha. unfold approval_of_reply. rewrite Hd. simpl. by rewrite Ha.
  - destruct (is_aiohttp_error e) eqn:He.
    + rewrite (send_approval_request_transient _ _ _ _ _ _ Hpost Hd He).
      destruct (classify_failure payload e w1) as [[r' w'] tl'] eqn:Hc.
      apply classify_shape in Hc as (e' & -> & Hc).
      apply classified_no_posts in Hc as [Hp Hne]. simpl.
      exists (bad_request_log endpoint reply ++ tl'). split; [done|]. split.
      { rewrite posts_app, Hp.
        by destruct (bad_request_log_cases endpoint reply) as [->|[body ->]]. }
      split; [|done]. intros _. split; [by exists e|by exists e'].
    + rewrite (send_approval_request_uncaught _ _ _ _ _ Hpost);
        [|intros e0; rewrite Hd; by intros [= <-]].
      exists []. simpl. rewrite Hd. simpl.
      split; [done|]. split; [done|]. split; [done|]. by intros a.
Qed.

(** X5.  In one invocation of the replicas loop, the failure records name the
    endpoints posted to, in order: every attempt is logged as failed except
    possibly the last; and every error logged is a [ClientError] or a
    [TimeoutError]. *)
Theorem attempts_are_logged {World : Type} {ext : Externals World}
    (replicas : list string) (payload : dict) (w : World) :
  (failures (send_approval_request_to_replicas_wrapped replicas payload w).2).*2
    `prefix_of` posts (send_approval_request_to_replicas_wrapped replicas payload w).2
  ∧ (length (posts (send_approval_request_to_replicas_wrapped replicas payload w).2)
     ≤ S (length (failures (send_approval_request_to_replicas_wrapped replicas payload w).2)))%nat
  ∧ Forall (λ failed, is_aiohttp_error failed.1 = true)
      (failures (send_approval_request_to_replicas_wrapped replicas payload w).2).
Proof.
  destruct (send_approval_request_to_replicas_wrapped replicas payload w)
    as [[r w'] t] eqn:Hrun. simpl.
  pose proof (failures_transient 0 replicas payload w r w' t Hrun) as Hall.
  apply wrapped_inv in Hrun as [w1 Hrun].
  apply for_endpoints_logged in Hrun as [Hpre Hlen]. done.
Qed.

(** ** Hexadecimal text *)

Lemma decode_byte_hex (b : byte) (s : string) :
  decode_pairs (byte_hex b +:+ s) = (rest ← decode_pairs s; Some (b :: rest)).
Proof. destruct b; reflexivity. Qed.

Lemma string_app_nil_r (s : string) : s +:+ "" = s.
Proof.
  induction s as [|c s IH]; [done|].
  change (String c (s +:+ "") = String c s). by rewrite IH.
Qed.

Lemma string_concat_cons (x : string) (l : list string) :
  String.concat "" (x :: l) = x +:+ String.concat "" l.
Proof. destruct l; [symmetry; apply string_app_nil_r|done]. Qed.

Lemma decode_hex_digits (bs : bytes) :
  decode_pairs (String.concat "" (map byte_hex bs)) = Some bs.
Proof.
  induction bs as [|b bs IH]; [done|].
  change (map byte_hex (b :: bs)) with (byte_hex b :: map byte_hex bs).
  rewrite string_concat_cons, decode_byte_hex, IH. done.
Qed.

Lemma to_hex_inj (bs1 bs2 : bytes) : to_hex bs1 = to_hex bs2 → bs1 = bs2.
Proof.
  unfold to_hex. intros H.
  change (String "0" (String "x" (String.concat "" (map byte_hex bs1)))
          = String "0" (String "x" (String.concat "" (map byte_hex bs2)))) in H.
  injection H as H.
  pose proof (decode_hex_digits bs1) as H1. rewrite H, decode_hex_digits in H1.
  by simplify_eq.
Qed.

(** X6.  The comparison of line 130 is made on hexadecimal text; against a
    [validators_root] that is itself the hexadecimal text of a root, it tells
    exactly whether the two roots differ as bytes. *)
Theorem registry_root_compared_as_bytes (registry_root request_root : bytes) :
  py_ne_str (to_hex registry_root) (PStr (to_hex request_root)) = true
  ↔ registry_root ≠ request_root.
Proof.
  unfold py_ne_str. rewrite negb_true_iff, String.eqb_neq. split.
  - intros Hne ->. by apply Hne.
  - intros Hne H. by apply Hne, to_hex_inj.
Qed.

(** ** The aggregation *)

Section AggregateExtras.
Implicit Types (rows : list (string * list string * result OracleApproval)).

Lemma collect_size_le rows acc failed :
  (size (collect rows acc failed).1.1
   ≤ size acc + length (filter (λ row, is_Return row.2 = true) rows))%nat.
Proof.
  revert acc failed.
  induction rows as [|[[address replicas] [approval|e]] rows IH]; intros acc failed.
  - simpl. lia.
  - rewrite filter_cons_True by done. simpl.
    etrans; [apply IH|]. rewrite map_size_insert.
    destruct (acc !! address); unfold id; lia.
  - rewrite filter_cons_False by done. simpl.
    specialize (IH acc (failed ++ replicas)).
    by destruct (collect rows acc (failed ++ replicas)) as [[a f] t].
Qed.

Lemma collect_size_eq rows acc failed :
  NoDup (rows.*1.*1) →
  (∀ address, address ∈ rows.*1.*1 → acc !! address = None) →
  size (collect rows acc failed).1.1
  = (size acc + length (filter (λ row, is_Return row.2 = true) rows))%nat.
Proof.
  revert acc failed.
  induction rows as [|[[address replicas] [approval|e]] rows IH];
    intros acc failed Hnd Hfresh.
  - simpl. lia.
  - apply NoDup_cons in Hnd as [Hnin Hnd]. rewrite filter_cons_True by done. simpl.
    rewrite IH; [|done|].
    + rewrite map_size_insert_None; [lia|]. apply Hfresh. by left.
    + intros address' Hin. rewrite lookup_insert_ne; [|by intros ->].
      apply Hfresh. by right.
  - apply NoDup_cons in Hnd as [Hnin Hnd]. rewrite filter_cons_False by done. simpl.
    specialize (IH acc (failed ++ replicas) Hnd).
    destruct (collect rows acc (failed ++ replicas)) as [[a f] t]. simpl in *.
    apply IH. intros address' Hin. apply Hfresh. by right.
Qed.

Lemma zip_successes_le {K} (keys : list K) (results : list (result OracleApproval)) :
  (length (filter (λ row : K * result OracleApproval, is_Return row.2 = true) (zip keys results))
   ≤ length (filter (λ r, is_Return r = true) results))%nat.
Proof.
  revert results. induction keys as [|k keys IH]; intros [|r results];
    try (simpl; lia).
  change (zip (k :: keys) (r :: results)) with ((k, r) :: zip keys results).
  destruct (decide (is_Return r = true)) as [Hr|Hr].
  - rewrite !filter_cons_True by done. simpl. specialize (IH results). lia.
  - rewrite !filter_cons_False by done. apply IH.
Qed.

Lemma collect_all_failed rows acc failed :
  Forall (λ row, is_Return row.2 = false) rows →
  (collect rows acc failed).1 = (acc, failed ++ concat rows.*1.*2).
Proof.
  intros H. revert acc failed.
  induction H as [|[[address replicas] [approval|e]] rows Hr H IH]; intros acc failed; simpl.
  - by rewrite app_nil_r.
  - done.
  - specialize (IH acc (failed ++ replicas)).
    destruct (collect rows acc (failed ++ replicas)) as [[a f] t]. simpl in *.
    rewrite IH. by rewrite <-app_assoc.
Qed.
End AggregateExtras.

(** X7.  The number of approvals reported never exceeds the number of tasks
    that succeeded, nor the number of oracles; when the addresses are distinct
    and the three lists are of one length, it is exactly the number of tasks
    that succeeded. *)
Theorem approvals_count (oracles : Oracles) (results : list (result OracleApproval)) :
  (size (collect (zip (zip (addresses oracles) (endpoints oracles)) results) ∅ []).1.1
   ≤ length (filter (λ r, is_Return r = true) results))%nat
  ∧ (size (collect (zip (zip (addresses oracles) (endpoints oracles)) results) ∅ []).1.1
     ≤ length (endpoints oracles))%nat
  ∧ (NoDup (addresses oracles) →
     length (addresses oracles) = length (endpoints oracles) →
     length results = length (endpoints oracles) →
     size (collect (zip (zip (addresses oracles) (endpoints oracles)) results) ∅ []).1.1
     = length (filter (λ r, is_Return r = true) results)).
Proof.
  set (rows := zip (zip (addresses oracles) (endpoints oracles)) results).
  pose proof (collect_size_le rows ∅ []) as Hle. rewrite map_size_empty in Hle. simpl in Hle.
  split; [|split].
  - etrans; [exact Hle|]. apply zip_successes_le.
  - etrans; [exact Hle|]. etrans; [apply length_filter|].
    unfold rows. rewrite !length_zip. lia.
  - intros Hnd Hlen1 Hlen2.
    assert (rows.*1 = zip (addresses oracles) (endpoints oracles)) as H1.
    { apply fst_zip. rewrite length_zip. lia. }
    assert (rows.*1.*1 = addresses oracles) as H2.
    { rewrite H1. apply fst_zip. lia. }
    assert (rows.*2 = results) as H3.
    { apply snd_zip. rewrite length_zip. lia. }
    rewrite (collect_size_eq rows ∅ []); [|by rewrite H2|by intros; apply lookup_empty].
    rewrite map_size_empty. simpl. rewrite <-H3.
    clear. induction rows as [|[key r] rows IH]; [done|]. rewrite fmap_cons.
    destruct (decide (is_Return r = true)) as [Hr|Hr].
    + rewrite !filter_cons_True by done. simpl. by rewrite IH.
    + rewrite !filter_cons_False by done. done.
Qed.

(** X8.  When an address occurs more than once among the oracles, its entry
    in the mapping is the approval of the last of its oracles whose task
    succeeded: a later success overwrites an earlier one. *)
Theorem last_success_wins (oracles : Oracles) (results : list (result OracleApproval))
    (i : nat) (address : string) (replicas : list string) (approval : OracleApproval) :
  addresses oracles !! i = Some address →
  endpoints oracles !! i = Some replicas →
  results !! i = Some (Return approval) →
  (∀ j approval', (i < j)%nat → addresses oracles !! j = Some address →
     results !! j ≠ Some (Return approval')) →
  (collect (zip (zip (addresses oracles) (endpoints oracles)) results) ∅ []).1.1 !! address
  = Some approval.
Proof.
  intros Ha He Hr Hlast.
  destruct (collect (zip (zip (addresses oracles) (endpoints oracles)) results) ∅ [])
    as [[approvals failed] warnings] eqn:Hc. simpl.
  eapply (collect_lookup_success _ _ _ _ _ _ i address replicas approval Hc).
  - apply lookup_zip_with_Some. exists (address, replicas), (Return approval).
    split; [done|]. split; [|done]. apply lookup_zip_with_Some. by exists address, replicas.
  - intros j replicas' approval' Hj Hrow.
    apply lookup_zip_with_Some in Hrow as ([a' r'] & y & [= <- <- <-] & Hk & Hres).
    apply lookup_zip_with_Some in Hk as (a'' & r'' & [= <- <-] & Ha' & _).
    by eapply Hlast.
Qed.

Lemma last_success_wins_witness :
  (collect (zip (zip (addresses twin_oracles) (endpoints twin_oracles))
              [Return the_approval; Return later_approval]) ∅ []).1.1 !! "0xA"
  = Some later_approval.
Proof.
  apply (last_success_wins twin_oracles [Return the_approval; Return later_approval]
           1 "0xA" ["https://a2"] later_approval eq_refl eq_refl eq_refl).
  intros [|[|j]] approval' Hj Ha; [lia|lia|done].
Defined.

(** X9.  When no task succeeded, [process_oracles_approvals] is handed the
    empty mapping, and the failed endpoints are all the replicas of the
    oracles, in order. *)
Theorem all_oracles_failed {OraclesApproval : Type}
    (process_oracles_approvals : gmap string OracleApproval → Z → result OraclesApproval)
    (oracles : Oracles) (request : ApprovalRequest) (results : list (result OracleApproval)) :
  Forall (λ r, is_Return r = false) results →
  (aggregate process_oracles_approvals oracles request results).1
  = process_oracles_approvals ∅ (validators_threshold oracles)
  ∧ (collect (zip (zip (addresses oracles) (endpoints oracles)) results) ∅ []).1
    = (∅, concat (zip (zip (addresses oracles) (endpoints oracles)) results).*1.*2).
Proof.
  intros Hall.
  assert (Forall (λ row : string * list string * result OracleApproval, is_Return row.2 = false)
            (zip (zip (addresses oracles) (endpoints oracles)) results)) as Hrows.
  { apply Forall_forall. intros [key r] Hin. apply elem_of_zip_r in Hin.
    by apply (proj1 (Forall_forall _ _) Hall). }
  pose proof (collect_all_failed _ ∅ [] Hrows) as Hc. simpl in Hc.
  split; [|done]. rewrite aggregate_result. by rewrite Hc.
Qed.

Lemma all_oracles_failed_witness :
  (aggregate process_oracles_approvals_spec two_oracles the_request
     [Raise TimeoutError; Raise (RegistryRootChangedError TimeoutError)]).1
  = Raise (NotEnoughOracleApprovalsError 0 1)
  ∧ (collect (zip (zip (addresses two_oracles) (endpoints two_oracles))
                [Raise TimeoutError; Raise (RegistryRootChangedError TimeoutError)]) ∅ []).1
    = (∅, ["https://a1"; "https://b1"]).
Proof.
  apply (all_oracles_failed process_oracles_approvals_spec two_oracles the_request
           [Raise TimeoutError; Raise (RegistryRootChangedError TimeoutError)]).
  repeat constructor.
Defined.

(** ** The keystore loader *)

Section KeystoreExtras.
Context {crypto : KeystoreCrypto}.

Lemma process_keystore_file_Return fs keystore_file keystore_path pub_key priv_key :
  _process_keystore_file fs keystore_file keystore_path = Return (pub_key, priv_key) →
  ∃ text keystore pk,
    file_text fs (path_join keystore_path (name keystore_file)) = Return text
    ∧ from_text text = Some keystore
    ∧ decrypt keystore (password keystore_file) = Some priv_key
    ∧ SkToPk priv_key = Return pk
    ∧ pub_key = to_hex pk.
Proof.
  unfold _process_keystore_file.
  destruct (file_text fs (path_join keystore_path (name keystore_file))) as [text|e0]; [|done].
  destruct (from_text text) as [keystore|] eqn:Hparse; [|done].
  destruct (decrypt keystore (password keystore_file)) as [private_key|] eqn:Hdec; [|done].
  destruct (SkToPk private_key) as [pk|e] eqn:Hpk; [|done].
  simpl. intros [= <- <-]. by exists text, keystore, pk.
Qed.

(** A load that returns has gone through every file. *)
Lemma load_keystores_Return fs settings closing keystores :
  load_keystores fs settings closing = Return keystores →
  ∃ files pairs,
    list_keystore_files fs settings = Return files
    ∧ map (λ keystore_file, _process_keystore_file fs keystore_file (keystores_dir settings))
          files = map Return pairs
    ∧ keystores = foldl (λ m '(pub_key, priv_key), <[pub_key := priv_key]> m) ∅ pairs.
Proof.
  unfold load_keystores. intros Hload.
  destruct (list_keystore_files fs settings) as [files|e]; [|done]. simpl in Hload.
  destruct (Pool (pool_size settings)) as [[]|e]; [|done]. simpl in Hload.
  set (units := map (λ keystore_file,
                       _process_keystore_file fs keystore_file (keystores_dir settings)) files)
    in *.
  destruct (apply_async_all closing 0 false units) as [rs|e] eqn:Hsub; [|done].
  simpl in Hload. apply apply_async_all_Return in Hsub as ->.
  destruct (all_Return_or_not units) as [Hok|Hfail].
  - destruct (all_Return_map units Hok) as [pairs Hpairs]. exists files, pairs.
    split; [done|]. split; [done|].
    rewrite Hpairs, collect_keystores_ok in Hload. by simplify_eq.
  - destruct (collect_keystores_Raise units ∅ Hfail) as [e He]. congruence.
Qed.

Lemma foldl_insert_lookup_inv (pairs : list (string * bytes)) (acc : gmap string bytes) k v :
  foldl (λ m '(pub_key, priv_key), <[pub_key := priv_key]> m) acc pairs !! k = Some v →
  acc !! k = Some v ∨ (k, v) ∈ pairs.
Proof.
  revert acc. induction pairs as [|[k' v'] pairs IH]; intros acc H; simpl in H; [by left|].
  destruct (IH _ H) as [Hacc|Hin].
  - destruct (decide (k' = k)) as [->|Hne].
    + rewrite lookup_insert_eq in Hacc. simplify_eq. right. by left.
    + rewrite lookup_insert_ne in Hacc by done. by left.
  - right. by right.
Qed.

Lemma foldl_insert_lookup_other (pairs : list (string * bytes)) (acc : gmap string bytes) k :
  (∀ v, (k, v) ∉ pairs) →
  foldl (λ m '(pub_key, priv_key), <[pub_key := priv_key]> m) acc pairs !! k = acc !! k.
Proof.
  revert acc. induction pairs as [|[k' v'] pairs IH]; intros acc Hno; simpl; [done|].
  rewrite IH.
  - apply lookup_insert_ne. intros ->. apply (Hno v'). by left.
  - intros v Hin. apply (Hno v). by right.
Qed.

Lemma foldl_insert_lookup_last (pairs : list (string * bytes)) (acc : gmap string bytes) i k v :
  pairs !! i = Some (k, v) →
  (∀ j v', (i < j)%nat → pairs !! j ≠ Some (k, v')) →
  foldl (λ m '(pub_key, priv_key), <[pub_key := priv_key]> m) acc pairs !! k = Some v.
Proof.
  revert i acc. induction pairs as [|[k' v'] pairs IH]; intros i acc Hi Hlast; [done|].
  destruct i as [|i]; simplify_eq/=.
  - rewrite foldl_insert_lookup_other; [apply lookup_insert_eq|].
    intros v' Hin. apply list_elem_of_lookup in Hin as [j Hj].
    apply (Hlast (S j) v'); [lia|done].
  - eapply IH; [done|]. intros j v'' Hj. apply (Hlast (S j)). lia.
Qed.

(** The submissions raise only the pool's own error. *)
Lemma apply_async_all_cases {A} closing i failed (units : list (result A)) :
  apply_async_all closing i failed units = Return units
  ∨ apply_async_all closing i failed units = Raise (ValueError "Pool not running").
Proof.
  revert i failed. induction units as [|u units IH]; intros i failed; simpl; [by left|].
  destruct (failed && closing i); [by right|].
  destruct (IH (S i) (failed || negb (is_Return u))) as [->| ->]; [by left|by right].
Qed.

Lemma apply_async_all_open {A} closing i failed (units : list (result A)) :
  (∀ j, closing j = false) →
  apply_async_all closing i failed units = Return units.
Proof.
  intros Hopen. revert i failed. induction units as [|u units IH]; intros i failed; simpl; [done|].
  rewrite Hopen, andb_false_r. by rewrite IH.
Qed.

Lemma collect_keystores_first_failure pairs e rest keystores :
  collect_keystores (map Return pairs ++ Raise e :: rest) keystores
  = Raise match e with
          | KeystoreException msg =>
              RuntimeError "Failed to load keystores" (Some (KeystoreException msg))
          | _ => e
          end.
Proof.
  revert keystores. induction pairs as [|[pub_key priv_key] pairs IH]; intros keystores; simpl.
  - by destruct e.
  - apply IH.
Qed.

Lemma list_keystore_loop_none fs settings names :
  Forall (λ f, is_keystore_name fs settings f = false) names →
  list_keystore_loop fs settings names = Return [].
Proof. induction 1 as [|f names Hf H IH]; [done|]. simpl. by rewrite Hf. Qed.

(** The first keystore file whose password cannot be read decides. *)
Lemma list_keystore_loop_no_password fs settings before f after e :
  Forall (λ g, is_keystore_name fs settings g = true →
               isfile fs (path_join (keystores_password_dir settings)
                            (str_replace g ".json" ".txt")) = true →
               is_Return (file_text fs (path_join (keystores_password_dir settings)
                                          (str_replace g ".json" ".txt"))) = true) before →
  is_keystore_name fs settings f = true →
  isfile fs (path_join (keystores_password_dir settings) (str_replace f ".json" ".txt")) = false →
  file_text fs (keystores_password_file settings) = Raise e →
  list_keystore_loop fs settings (before ++ f :: after) = Raise e.
Proof.
  intros Hbefore Hf Hside Hdefault.
  induction Hbefore as [|g before Hg _ IH]; simpl.
  - rewrite Hf. simpl. unfold _load_keystores_password, password_file_of.
    by rewrite Hside, Hdefault.
  - destruct (is_keystore_name fs settings g) eqn:Hname; simpl; [|done].
    unfold _load_keystores_password, password_file_of.
    destruct (isfile fs (path_join (keystores_password_dir settings)
                           (str_replace g ".json" ".txt"))) eqn:Hs.
    + specialize (Hg eq_refl eq_refl).
      destruct (file_text fs (path_join (keystores_password_dir settings)
                                (str_replace g ".json" ".txt"))) as [text|e0]; [|done].
      simpl. by rewrite IH.
    + by rewrite Hdefault.
Qed.
End KeystoreExtras.

(** [strip] leaves nothing to strip. *)
Section DropSpaces.
Variable width : list ascii → nat.
Hypothesis width_le : ∀ l, (width l ≤ length l)%nat.

Lemma drop_spaces_fixed fuel l : width l = O → drop_spaces width fuel l = l.
Proof. intros H. destruct fuel; simpl; [done|]. by rewrite H. Qed.

Lemma drop_spaces_width fuel l :
  (length l ≤ fuel)%nat → width (drop_spaces width fuel l) = O.
Proof.
  revert l. induction fuel as [|fuel IH]; intros l Hlen; simpl.
  - pose proof (width_le l). lia.
  - destruct (width l) as [|k] eqn:Hw; [done|].
    apply IH. rewrite length_drop. lia.
Qed.

Lemma drop_spaces_drop fuel l : ∃ n, drop_spaces width fuel l = drop n l.
Proof.
  revert l. induction fuel as [|fuel IH]; intros l; simpl; [by exists O|].
  destruct (width l) as [|k]; [by exists O|].
  destruct (IH (drop (S k) l)) as [n ->]. exists (S k + n)%nat. by rewrite drop_drop.
Qed.
End DropSpaces.

Lemma space_width_le l : (space_width l ≤ length l)%nat.
Proof.
  destruct l as [|c1 [|c2 [|c3 l]]]; simpl; [lia|..];
    repeat match goal with |- context [if ?b then _ else _] => destruct b end; lia.
Qed.

Lemma space_width_end_le l : (space_width_end l ≤ length l)%nat.
Proof.
  destruct l as [|c1 [|c2 [|c3 l]]]; simpl; [lia|..];
    repeat match goal with |- context [if ?b then _ else _] => destruct b end; lia.
Qed.

(** A text that starts with white space still does when it is extended. *)
Lemma space_width_app l tail : space_width (l ++ tail) = O → space_width l = O.
Proof.
  destruct l as [|c1 [|c2 [|c3 l]]]; simpl; [done|..];
    repeat match goal with |- context [if ?b then _ else _] => destruct b end;
    try done; destruct tail as [|d1 [|d2 tail]]; simpl;
    repeat match goal with |- context [if ?b then _ else _] => destruct b end; done.
Qed.

Lemma lstrip_width l : space_width (lstrip l) = O.
Proof. apply drop_spaces_width; [apply space_width_le|done]. Qed.

Lemma rstrip_prefix l : ∃ tail, l = rstrip l ++ tail.
Proof.
  unfold rstrip.
  destruct (drop_spaces_drop space_width_end (length l) (reverse l)) as [n ->].
  exists (reverse (take n (reverse l))).
  by rewrite <-reverse_app, take_drop, reverse_involutive.
Qed.

Lemma rstrip_idemp l : rstrip (rstrip l) = rstrip l.
Proof.
  unfold rstrip. rewrite reverse_involutive. f_equal.
  apply drop_spaces_fixed, drop_spaces_width; [apply space_width_end_le|].
  by rewrite length_reverse.
Qed.

Lemma strip_idemp s : strip (strip s) = strip s.
Proof.
  unfold strip. rewrite list_ascii_of_string_of_list_ascii. f_equal.
  assert (lstrip (rstrip (lstrip (list_ascii_of_string s)))
          = rstrip (lstrip (list_ascii_of_string s))) as ->; [|apply rstrip_idemp].
  apply drop_spaces_fixed.
  destruct (rstrip_prefix (lstrip (list_ascii_of_string s))) as [tail Htail].
  apply (space_width_app _ tail). rewrite <-Htail. apply lstrip_width.
Qed.

(** X10.  Every entry of the mapping that [load_keystores] returns comes from
    a listed keystore file: its private key is what that file decrypts to
    under the password resolved for it, and its key is the hexadecimal text
    of the public key derived from that private key. *)
Theorem loaded_keys_are_consistent {crypto : KeystoreCrypto} (fs : FileSystem)
    (settings : Settings) (closing : nat → bool) (keystores : gmap string bytes)
    (pub_key : string) (priv_key : bytes) :
  load_keystores fs settings closing = Return keystores →
  keystores !! pub_key = Some priv_key →
  ∃ files keystore_file text keystore pk,
    list_keystore_files fs settings = Return files
    ∧ keystore_file ∈ files
    ∧ file_text fs (path_join (keystores_dir settings) (name keystore_file)) = Return text
    ∧ from_text text = Some keystore
    ∧ decrypt keystore (password keystore_file) = Some priv_key
    ∧ SkToPk priv_key = Return pk
    ∧ pub_key = to_hex pk.
Proof.
  intros Hload Hl. apply load_keystores_Return in Hload as (files & pairs & Hfiles & Hunits & ->).
  apply foldl_insert_lookup_inv in Hl as [Hempty|Hin]; [by rewrite lookup_empty in Hempty|].
  apply list_elem_of_lookup in Hin as [i Hi].
  assert (map Return pairs !! i = Some (Return (pub_key, priv_key))) as Hu.
  { by rewrite list_lookup_fmap, Hi. }
  rewrite <-Hunits, list_lookup_fmap in Hu.
  destruct (files !! i) as [keystore_file|] eqn:Hf; [|done]. simpl in Hu.
  injection Hu as Hp.
  apply process_keystore_file_Return in Hp as (text & keystore & pk & H').
  exists files, keystore_file, text, keystore, pk.
  split; [done|]. split; [by eapply list_elem_of_lookup_2|done].
Qed.

Lemma loaded_keys_are_consistent_witness :
  ∃ files keystore_file text keystore pk,
    list_keystore_files scenario_fs scenario_settings = Return files
    ∧ keystore_file ∈ files
    ∧ file_text scenario_fs (path_join (keystores_dir scenario_settings) (name keystore_file))
      = Return text
    ∧ from_text (KeystoreCrypto := toy_crypto) text = Some keystore
    ∧ decrypt (KeystoreCrypto := toy_crypto) keystore (password keystore_file)
      = Some (bytes_of_string "key-one")
    ∧ SkToPk (KeystoreCrypto := toy_crypto) (bytes_of_string "key-one") = Return pk
    ∧ "0x656e6f2d79656b" = to_hex pk.
Proof.
  destruct (load_keystores (crypto := toy_crypto) scenario_fs scenario_settings (λ _, true))
    as [keystores|e] eqn:Hload; [|by vm_compute in Hload].
  apply (loaded_keys_are_consistent (crypto := toy_crypto) scenario_fs scenario_settings
           (λ _, true) keystores "0x656e6f2d79656b" (bytes_of_string "key-one") Hload).
  vm_compute in Hload. by simplify_eq.
Defined.

(** X11.  When two keystore files yield the same public key, the mapping
    keeps the private key of the one listed last: the later entry overwrites
    the earlier one without an error. *)
Theorem later_keystore_overwrites {crypto : KeystoreCrypto} (fs : FileSystem)
    (settings : Settings) (closing : nat → bool) (files : list KeystoreFile)
    (keystores : gmap string bytes) (i : nat) (keystore_file : KeystoreFile)
    (pub_key : string) (priv_key : bytes) :
  list_keystore_files fs settings = Return files →
  load_keystores fs settings closing = Return keystores →
  files !! i = Some keystore_file →
  _process_keystore_file fs keystore_file (keystores_dir settings) = Return (pub_key, priv_key) →
  (∀ j later priv_key', (i < j)%nat → files !! j = Some later →
     _process_keystore_file fs later (keystores_dir settings) ≠ Return (pub_key, priv_key')) →
  keystores !! pub_key = Some priv_key.
Proof.
  intros Hfiles Hload Hi Hp Hlast.
  apply load_keystores_Return in Hload as (files' & pairs & Hfiles' & Hunits & ->).
  rewrite Hfiles in Hfiles'. simplify_eq.
  assert (∀ j, map Return pairs !! j
               = (λ kf, _process_keystore_file fs kf (keystores_dir settings)) <$> files' !! j)
    as Hj.
  { intros j. by rewrite <-Hunits, list_lookup_fmap. }
  eapply (foldl_insert_lookup_last _ _ i).
  - specialize (Hj i). rewrite Hi in Hj. simpl in Hj. rewrite Hp, list_lookup_fmap in Hj.
    destruct (pairs !! i) as [pair|]; by simplify_eq/=.
  - intros j v' Hlt Hpj. specialize (Hj j). rewrite list_lookup_fmap, Hpj in Hj. simpl in Hj.
    destruct (files' !! j) as [later|] eqn:Hf; [|done]. simpl in Hj.
    eapply Hlast; [done..|]. by simplify_eq.
Qed.

Lemma later_keystore_overwrites_witness :
  ∃ keystores,
    load_keystores (crypto := colliding_crypto) scenario_fs scenario_settings (λ _, false)
    = Return keystores
    ∧ _process_keystore_file (crypto := colliding_crypto) scenario_fs
        {| name := "keystore1.json"; password := "abc" |} "/data/keystores"
      = Return ("0x6b6579", bytes_of_string "key-one")
    ∧ keystores !! "0x6b6579" = Some (bytes_of_string "key-two").
Proof.
  destruct (load_keystores (crypto := colliding_crypto) scenario_fs scenario_settings (λ _, false))
    as [keystores|e] eqn:Hload; [|by vm_compute in Hload].
  exists keystores. split; [done|]. split; [reflexivity|].
  apply (later_keystore_overwrites (crypto := colliding_crypto) scenario_fs scenario_settings
           (λ _, false)
           [{| name := "keystore1.json"; password := "abc" |};
            {| name := "keystore2.json"; password := "xyz" |}]
           keystores 1 {| name := "keystore2.json"; password := "xyz" |}
           "0x6b6579" (bytes_of_string "key-two") eq_refl Hload eq_refl eq_refl).
  intros [|[|j]] later priv_key' Hj Hf; [lia|lia|done].
Defined.

(** X12.  The error of a failed load, once the pool has been created (a pool
    size of at least one): with the units of the files before it successful,
    the first failing unit decides.  A [KeystoreException] is reported as
    [RuntimeError('Failed to load keystores')] with it as the cause, any
    other exception as it is; unless the pool was closed by the failure
    before all units were submitted, in which case it is the pool's
    [ValueError].  When the pool stays open the load raises the former. *)
Theorem first_failure_decides {crypto : KeystoreCrypto} (fs : FileSystem)
    (settings : Settings) (closing : nat → bool) (files : list KeystoreFile)
    (pairs : list (string * bytes)) (e : exn) (rest : list (result (string * bytes))) :
  list_keystore_files fs settings = Return files →
  (1 ≤ pool_size settings)%nat →
  map (λ keystore_file, _process_keystore_file fs keystore_file (keystores_dir settings)) files
  = map Return pairs ++ Raise e :: rest →
  (load_keystores fs settings closing
   = Raise match e with
           | KeystoreException msg =>
               RuntimeError "Failed to load keystores" (Some (KeystoreException msg))
           | _ => e
           end
   ∨ load_keystores fs settings closing = Raise (ValueError "Pool not running"))
  ∧ ((∀ j, closing j = false) →
     load_keystores fs settings closing
     = Raise match e with
             | KeystoreException msg =>
                 RuntimeError "Failed to load keystores" (Some (KeystoreException msg))
             | _ => e
             end).
Proof.
  intros Hfiles Hsize Hunits. unfold load_keystores, Pool. rewrite Hfiles. simpl.
  rewrite (proj2 (Nat.ltb_ge _ _) Hsize). simpl. rewrite Hunits. split.
  - destruct (apply_async_all_cases closing 0 false (map Return pairs ++ Raise e :: rest))
      as [-> | ->]; [left|by right].
    simpl. apply collect_keystores_first_failure.
  - intros Hopen. rewrite apply_async_all_open by done. simpl.
    apply collect_keystores_first_failure.
Qed.

Lemma first_failure_decides_witness :
  load_keystores (crypto := toy_crypto) no_password_fs
    {| keystores_dir := "/data/keystores"; keystores_password_dir := "/data/keystores";
       keystores_password_file := "/data/keystores/keystore1.txt"; pool_size := 2 |}
    (λ _, false)
  = Raise (RuntimeError "Failed to load keystores"
             (Some (KeystoreException
                      ("Invalid password for keystore " +:+ dquote +:+ "keystore2.json"
                         +:+ dquote)))).
Proof.
  apply (first_failure_decides (crypto := toy_crypto) no_password_fs
           {| keystores_dir := "/data/keystores"; keystores_password_dir := "/data/keystores";
              keystores_password_file := "/data/keystores/keystore1.txt"; pool_size := 2 |}
           (λ _, false)
           [{| name := "keystore1.json"; password := "abc" |};
            {| name := "keystore2.json"; password := "abc" |}]
           [("0x656e6f2d79656b", bytes_of_string "key-one")]
           (KeystoreException
              ("Invalid password for keystore " +:+ dquote +:+ "keystore2.json" +:+ dquote))
           [] eq_refl (le_S 1 1 (le_n 1)) eq_refl).
  done.
Defined.

(** X13.  A directory that holds no keystore file (no regular file whose name
    starts with [keystore] and ends with [.json]) lists as empty, without a
    password file being read.  The load then returns the empty mapping when
    the pool size is at least one; with a smaller pool size it raises the
    [ValueError] of [Pool], although there is nothing to load. *)
Theorem no_keystores_loads_empty {crypto : KeystoreCrypto} (fs : FileSystem)
    (settings : Settings) (closing : nat → bool) (names : list string) :
  listdir fs (keystores_dir settings) = Return names →
  Forall (λ f, is_keystore_name fs settings f = false) names →
  list_keystore_files fs settings = Return []
  ∧ ((1 ≤ pool_size settings)%nat → load_keystores fs settings closing = Return ∅)
  ∧ ((pool_size settings < 1)%nat →
     load_keystores fs settings closing
     = Raise (ValueError "Number of processes must be at least 1")).
Proof.
  intros Hdir Hnone.
  assert (list_keystore_files fs settings = Return []) as Hfiles.
  { unfold list_keystore_files. rewrite Hdir. simpl. by apply list_keystore_loop_none. }
  split; [done|]. unfold load_keystores, Pool. rewrite Hfiles. simpl. split; intros Hsize.
  - by rewrite (proj2 (Nat.ltb_ge _ _) Hsize).
  - by rewrite (proj2 (Nat.ltb_lt _ _) Hsize).
Qed.

Lemma no_keystores_loads_empty_witness :
  list_keystore_files empty_fs scenario_settings = Return []
  ∧ load_keystores (crypto := toy_crypto) empty_fs scenario_settings (λ _, true) = Return ∅
  ∧ load_keystores (crypto := toy_crypto) empty_fs no_pool_settings (λ _, true)
    = Raise (ValueError "Number of processes must be at least 1").
Proof.
  destruct (no_keystores_loads_empty (crypto := toy_crypto) empty_fs scenario_settings
              (λ _, true) ["readme.md"; "keystore-old.bak"; "password.txt"] eq_refl)
    as (Hfiles & Hload & _); [repeat constructor|].
  destruct (no_keystores_loads_empty (crypto := toy_crypto) empty_fs no_pool_settings
              (λ _, true) ["readme.md"; "keystore-old.bak"; "password.txt"] eq_refl)
    as (_ & _ & Hpool); [repeat constructor|].
  split; [exact Hfiles|]. split; [apply Hload; repeat constructor|apply Hpool; constructor].
Defined.

(** X14.  When a keystore file has no sidecar and the default password file
    cannot be read, and the sidecars of the keystore files listed before it
    can be read where they are files, the listing raises the exception of
    reading the default password file, and so does the load, whatever the
    pool size: keystores that do have a sidecar do not save it. *)
Theorem missing_password_file_fails {crypto : KeystoreCrypto} (fs : FileSystem)
    (settings : Settings) (closing : nat → bool) (before : list string) (f : string)
    (after : list string) (e : exn) :
  listdir fs (keystores_dir settings) = Return (before ++ f :: after) →
  Forall (λ g, is_keystore_name fs settings g = true →
               isfile fs (path_join (keystores_password_dir settings)
                            (str_replace g ".json" ".txt")) = true →
               is_Return (file_text fs (path_join (keystores_password_dir settings)
                                          (str_replace g ".json" ".txt"))) = true) before →
  is_keystore_name fs settings f = true →
  isfile fs (path_join (keystores_password_dir settings) (str_replace f ".json" ".txt")) = false →
  file_text fs (keystores_password_file settings) = Raise e →
  list_keystore_files fs settings = Raise e
  ∧ load_keystores fs settings closing = Raise e.
Proof.
  intros Hdir Hbefore Hf Hside Hdefault.
  assert (list_keystore_files fs settings = Raise e) as Hfiles.
  { unfold list_keystore_files. rewrite Hdir. simpl.
    by apply list_keystore_loop_no_password. }
  split; [done|]. unfold load_keystores. by rewrite Hfiles.
Qed.

Lemma missing_password_file_fails_witness :
  list_keystore_files no_password_fs scenario_settings
  = Raise (OSError "/data/keystores/password.txt")
  ∧ load_keystores (crypto := toy_crypto) no_password_fs scenario_settings (λ _, false)
    = Raise (OSError "/data/keystores/password.txt").
Proof.
  apply (missing_password_file_fails (crypto := toy_crypto) no_password_fs scenario_settings
           (λ _, false) ["keystore1.json"; "keystore1.txt"] "keystore2.json" []
           (OSError "/data/keystores/password.txt") eq_refl); [|reflexivity..].
  constructor; [reflexivity|]. constructor; [discriminate|]. constructor.
Defined.

(** X15.  The password of every keystore file listed is stripped: stripping
    it again changes nothing, so it carries no leading or trailing whitespace
    (such as the newline that ends a password file). *)
Theorem passwords_are_stripped (fs : FileSystem) (settings : Settings)
    (files : list KeystoreFile) (keystore_file : KeystoreFile) :
  list_keystore_files fs settings = Return files →
  keystore_file ∈ files →
  strip (password keystore_file) = password keystore_file.
Proof.
  unfold list_keystore_files. intros H Hin.
  destruct (listdir fs (keystores_dir settings)) as [names|e]; [|done]. simpl in H.
  apply list_keystore_loop_spec in H as [_ Hpw].
  apply (proj1 (Forall_forall _ _) Hpw) in Hin. unfold _load_keystores_password in Hin.
  destruct (file_text fs (password_file_of fs settings (name keystore_file))) as [text|e];
    [|done].
  injection Hin as Hpw'. rewrite <-Hpw'. apply strip_idemp.
Qed.

Lemma passwords_are_stripped_witness :
  strip (password {| name := "keystore2.json"; password := "xyz" |}) = "xyz".
Proof.
  apply (passwords_are_stripped scenario_fs scenario_settings
           [{| name := "keystore1.json"; password := "abc" |};
            {| name := "keystore2.json"; password := "xyz" |}]
           {| name := "keystore2.json"; password := "xyz" |} eq_refl).
  apply list_elem_of_further, list_elem_of_here.
Defined.

(** ** The validators tree and the deposit data file *)

Section TreeExtras.
Context {collab : TreeCollaborators}.

Lemma validators_loop_missing_field credentials i deposit_data :
  Exists (λ data, dict_get data "pubkey" = None ∨ dict_get data "signature" = None)
    deposit_data →
  ∃ e, validators_loop credentials i deposit_data = Raise e.
Proof.
  intros H. revert i. induction H as [data rest [Hpk|Hsg]|data rest H IH]; intros i; simpl.
  - unfold dict_getitem. rewrite Hpk. simpl. eauto.
  - unfold dict_getitem. rewrite Hsg.
    destruct (dict_get data "pubkey") as [pubkey|]; simpl; [|eauto].
    destruct (add_0x_prefix pubkey); simpl; eauto.
  - destruct (dict_getitem data "pubkey") as [pubkey|]; simpl; [|eauto].
    destruct (add_0x_prefix pubkey); simpl; [|eauto].
    destruct (dict_getitem data "signature") as [sig|]; simpl; [|eauto].
    destruct (add_0x_prefix sig); simpl; [|eauto].
    destruct (encode_tx_validator _ _); simpl; [|eauto].
    destruct (IH (S i)) as [e ->]. simpl. eauto.
Qed.

Lemma alter_tree_index_fst (l : list (bytes * Z * nat)) (i n : nat) :
  (alter (λ '(value, _), (value, n)) i l).*1 = l.*1.
Proof.
  revert i. induction l as [|[value k] l IH]; intros [|i]; simpl; try done.
  f_equal. apply IH.
Qed.

(** The tree keeps the leaf values in the order they were given. *)
Lemma StandardMerkleTree_of_values leaves t :
  StandardMerkleTree_of leaves = Return t → (values t).*1 = leaves.
Proof.
  unfold StandardMerkleTree_of. intros H.
  destruct (make_merkle_tree _) as [nodes|e]; [|done]. simpl in H. simplify_eq. simpl.
  match goal with
  | |- (foldl ?f ?init ?steps).*1 = _ =>
      assert (∀ acc, (foldl f acc steps).*1 = acc.*1) as Hfold
  end.
  { generalize (zip (seq 0 (length (sorted_by_hash
       (imap (λ index value, {| hv_value := value; hv_index := index;
                                hv_hash := leaf_hash value |}) leaves))))
       (sorted_by_hash
          (imap (λ index value, {| hv_value := value; hv_index := index;
                                   hv_hash := leaf_hash value |}) leaves))).
    intros steps. induction steps as [|[leaf_index hashed_value] steps IH]; intros acc; [done|].
    simpl. rewrite IH. apply alter_tree_index_fst. }
  rewrite Hfold. rewrite <-list_fmap_compose. by rewrite list_fmap_id.
Qed.

Lemma validators_loop_any_dicts credentials i (deposit_data : list dict) :
  validators_loop_any credentials i (map PDict deposit_data)
  = validators_loop credentials i deposit_data.
Proof.
  revert i. induction deposit_data as [|data rest IH]; intros i; [done|].
  simpl. by rewrite IH.
Qed.

Lemma validators_loop_any_not_dict credentials i data rest :
  (∀ d, data ≠ PDict d) →
  validators_loop_any credentials i (data :: rest)
  = Raise (TypeError "indices must be integers").
Proof. intros Hd. simpl. destruct data; try done. by destruct (Hd d). Qed.
End TreeExtras.

(** X16.  A deposit entry without a [pubkey] or without a [signature] makes
    [generate_validators_tree] raise: no tree and no validators are returned,
    whatever the other entries are. *)
Theorem missing_field_fails {collab : TreeCollaborators} (vault : string)
    (deposit_data : list dict) :
  Exists (λ data, dict_get data "pubkey" = None ∨ dict_get data "signature" = None)
    deposit_data →
  ∃ e, generate_validators_tree vault deposit_data = Raise e.
Proof.
  intros H. unfold generate_validators_tree.
  destruct (validators_loop_missing_field (get_eth1_withdrawal_credentials vault) 0 _ H)
    as [e ->].
  by exists e.
Qed.

Lemma missing_field_fails_witness :
  (∃ e, generate_validators_tree (collab := toy_collaborators) "0xvault"
          [[("pubkey", PStr "0xaa01"); ("signature", PStr "bb01")];
           [("pubkey", PStr "aa02")]] = Raise e)
  ∧ generate_validators_tree (collab := toy_collaborators) "0xvault"
      [[("pubkey", PStr "0xaa01"); ("signature", PStr "bb01")];
       [("pubkey", PStr "aa02")]] = Raise (KeyError "signature").
Proof.
  split; [|reflexivity].
  apply (missing_field_fails (collab := toy_collaborators) "0xvault").
  apply Exists_cons_tl, Exists_cons_hd. by right.
Defined.

(** X17.  In what [generate_validators_tree] returns, the leaf values of the
    tree are in the order of the validators: the [i]-th is the encoding of
    the [i]-th validator under the vault's withdrawal credentials, paired
    with that validator's index [i]. *)
Theorem leaves_follow_validators {collab : TreeCollaborators} (vault : string)
    (deposit_data : list dict) (t : StandardMerkleTree) (validators : list Validator) :
  generate_validators_tree vault deposit_data = Return (t, validators) →
  length (values t) = length validators
  ∧ ∀ i validator, validators !! i = Some validator →
      ∃ leaf tree_index,
        encode_tx_validator (get_eth1_withdrawal_credentials vault) validator = Return leaf
        ∧ values t !! i = Some (leaf, Z.of_nat i, tree_index)
        ∧ deposit_data_index validator = Z.of_nat i.
Proof.
  unfold generate_validators_tree. intros H.
  destruct (validators_loop (get_eth1_withdrawal_credentials vault) 0 deposit_data)
    as [[leaves validators']|e] eqn:Hloop; [|done].
  simpl in H. destruct (StandardMerkleTree_of leaves) as [t'|e] eqn:Htree; [|done].
  simpl in H. simplify_eq.
  apply StandardMerkleTree_of_values in Htree.
  destruct (validators_loop_spec _ _ _ _ _ Hloop) as [Hlen Hk].
  assert (length leaves = length deposit_data) as Hll.
  { apply Nat.le_antisymm.
    - destruct (decide (length leaves ≤ length deposit_data)%nat) as [|Hgt]; [done|].
      exfalso. clear Hk Htree Hlen. revert Hloop Hgt. generalize 0%nat at 1.
      revert leaves validators.
      induction deposit_data as [|data rest IH]; intros leaves validators i Hloop Hgt;
        simpl in Hloop.
      + simplify_eq. simpl in Hgt. lia.
      + destruct (dict_getitem data "pubkey") as [pubkey|]; [|done]. simpl in Hloop.
        destruct (add_0x_prefix pubkey); [|done]. simpl in Hloop.
        destruct (dict_getitem data "signature") as [sig|]; [|done]. simpl in Hloop.
        destruct (add_0x_prefix sig); [|done]. simpl in Hloop.
        destruct (encode_tx_validator _ _); [|done]. simpl in Hloop.
        destruct (validators_loop _ (S i) rest) as [[leaves' validators']|] eqn:Hrest;
          [|done].
        simpl in Hloop. simplify_eq. simpl in Hgt. eapply IH; [done|]. lia.
    - destruct (decide (length deposit_data ≤ length leaves)%nat) as [|Hgt]; [done|].
      exfalso. destruct (lookup_lt_is_Some_2 deposit_data (length leaves)) as [data Hd]; [lia|].
      destruct (Hk _ _ Hd) as (? & ? & ? & ? & leaf & _ & _ & _ & _ & _ & _ & Hleaf).
      apply lookup_lt_Some in Hleaf. lia. }
  split.
  { rewrite <-(length_fmap fst (values t)), Htree. lia. }
  intros i validator Hv.
  destruct (lookup_lt_is_Some_2 deposit_data i) as [data Hd].
  { apply lookup_lt_Some in Hv. lia. }
  destruct (Hk _ _ Hd) as (pubkey & sig & pk & sg & leaf & _ & _ & _ & _ & Hv' & Henc & Hleaf).
  simpl in Hv', Henc, Hleaf. rewrite Hv in Hv'. injection Hv' as ->.
  assert ((values t).*1 !! i = Some (leaf, Z.of_nat i)) as Hval by (by rewrite Htree).
  rewrite list_lookup_fmap in Hval.
  destruct (values t !! i) as [[value tree_index]|] eqn:Hvi; [|done].
  simpl in Hval. simplify_eq. by exists leaf, tree_index.
Qed.

Lemma leaves_follow_validators_witness :
  ∃ t validators,
    generate_validators_tree (collab := toy_collaborators) "0xvault" deposit_data_a
    = Return (t, validators)
    ∧ length (values t) = length validators
    ∧ ∀ i validator, validators !! i = Some validator →
        ∃ leaf tree_index,
          encode_tx_validator (TreeCollaborators := toy_collaborators)
            (get_eth1_withdrawal_credentials (TreeCollaborators := toy_collaborators) "0xvault")
            validator = Return leaf
          ∧ values t !! i = Some (leaf, Z.of_nat i, tree_index)
          ∧ deposit_data_index validator = Z.of_nat i.
Proof.
  eexists _, _. split; [reflexivity|].
  eapply (leaves_follow_validators (collab := toy_collaborators) "0xvault" deposit_data_a).
  reflexivity.
Defined.

(** X18.  The validators that [generate_validators_tree] returns depend on
    the deposit entries alone: two vaults for which the build succeeds get
    the same list of validators; the vault enters the tree only. *)
Theorem validators_do_not_depend_on_vault {collab : TreeCollaborators}
    (vault1 vault2 : string) (deposit_data : list dict)
    (t1 t2 : StandardMerkleTree) (validators1 validators2 : list Validator) :
  generate_validators_tree vault1 deposit_data = Return (t1, validators1) →
  generate_validators_tree vault2 deposit_data = Return (t2, validators2) →
  validators1 = validators2.
Proof.
  unfold generate_validators_tree. intros H1 H2.
  destruct (validators_loop (get_eth1_withdrawal_credentials vault1) 0 deposit_data)
    as [[leaves1 vs1]|e] eqn:Hloop1; [|done].
  simpl in H1. destruct (StandardMerkleTree_of leaves1) as [t1'|e]; [|done].
  destruct (validators_loop (get_eth1_withdrawal_credentials vault2) 0 deposit_data)
    as [[leaves2 vs2]|e] eqn:Hloop2; [|done].
  simpl in H2. destruct (StandardMerkleTree_of leaves2) as [t2'|e]; [|done].
  simpl in H1, H2. injection H1 as -> ->. injection H2 as -> ->.
  destruct (validators_loop_spec _ _ _ _ _ Hloop1) as [Hlen1 Hk1].
  destruct (validators_loop_spec _ _ _ _ _ Hloop2) as [Hlen2 Hk2].
  apply list_eq. intros i.
  destruct (deposit_data !! i) as [data|] eqn:Hd.
  - destruct (Hk1 _ _ Hd) as (pubkey & sig & pk & sg & leaf & Hp & Hp' & Hs & Hs' & -> & _).
    destruct (Hk2 _ _ Hd) as (pubkey2 & sig2 & pk2 & sg2 & leaf2 & Hq & Hq' & Hr & Hr' & -> & _).
    rewrite Hp in Hq. injection Hq as <-. rewrite Hs in Hr. injection Hr as <-.
    rewrite Hp' in Hq'. injection Hq' as <-. rewrite Hs' in Hr'. injection Hr' as <-. done.
  - apply lookup_ge_None in Hd.
    rewrite (proj2 (lookup_ge_None validators1 i)) by lia.
    by rewrite (proj2 (lookup_ge_None validators2 i)) by lia.
Qed.

Lemma validators_do_not_depend_on_vault_witness :
  ∃ t1 validators1 t2 validators2,
    generate_validators_tree (collab := toy_collaborators) "0xvault" deposit_data_a
    = Return (t1, validators1)
    ∧ generate_validators_tree (collab := toy_collaborators) "0xother" deposit_data_a
      = Return (t2, validators2)
    ∧ root t1 ≠ root t2
    ∧ validators1 = validators2.
Proof.
  eexists _, _, _, _. split; [reflexivity|]. split; [reflexivity|]. split; [by vm_compute|].
  eapply (validators_do_not_depend_on_vault (collab := toy_collaborators)
            "0xvault" "0xother" deposit_data_a); reflexivity.
Defined.

(** X19.  On a file whose JSON is an array of objects, [load_deposit_data]
    is [generate_validators_tree] on those objects, with the tree and the
    validators put in a [DepositData]; so the validator at position [i] of
    the result carries the index [i]. *)
Theorem load_deposit_data_of_array {collab : TreeCollaborators}
    (json_load : string → result pyval) (fs : FileSystem) (vault : string)
    (deposit_data_file : string) (text : string) (entries : list dict) :
  file_text fs deposit_data_file = Return text →
  json_load text = Return (PList (map PDict entries)) →
  load_deposit_data json_load fs vault deposit_data_file
  = result_bind (generate_validators_tree vault entries)
      (λ '(t, validators), Return {| dd_validators := validators; dd_tree := t |})
  ∧ ∀ deposit_data,
      load_deposit_data json_load fs vault deposit_data_file = Return deposit_data →
      length (dd_validators deposit_data) = length entries
      ∧ ∀ i validator, dd_validators deposit_data !! i = Some validator →
          deposit_data_index validator = Z.of_nat i.
Proof.
  intros Hfile Hjson.
  assert (load_deposit_data json_load fs vault deposit_data_file
          = result_bind (generate_validators_tree vault entries)
              (λ '(t, validators), Return {| dd_validators := validators; dd_tree := t |}))
    as Hload.
  { unfold load_deposit_data, generate_validators_tree_any, generate_validators_tree.
    rewrite Hfile. simpl. rewrite Hjson. simpl. by rewrite validators_loop_any_dicts. }
  split; [done|]. intros deposit_data Hret. rewrite Hload in Hret.
  unfold generate_validators_tree in Hret.
  destruct (validators_loop (get_eth1_withdrawal_credentials vault) 0 entries)
    as [[leaves validators]|e] eqn:Hloop; [|done].
  simpl in Hret. destruct (StandardMerkleTree_of leaves) as [t|e]; [|done].
  simpl in Hret. injection Hret as <-. simpl.
  destruct (validators_loop_spec _ _ _ _ _ Hloop) as [Hlen Hk]. split; [done|].
  intros i validator Hv.
  destruct (lookup_lt_is_Some_2 entries i) as [data Hd].
  { apply lookup_lt_Some in Hv. lia. }
  destruct (Hk _ _ Hd) as (? & ? & ? & ? & ? & _ & _ & _ & _ & Hv' & _).
  rewrite Hv in Hv'. by injection Hv' as ->.
Qed.

Lemma load_deposit_data_of_array_witness :
  is_Return (load_deposit_data (collab := toy_collaborators) toy_json_load deposit_fs
               "0xvault" "/data/deposit_data.json") = true
  ∧ load_deposit_data (collab := toy_collaborators) toy_json_load deposit_fs
      "0xvault" "/data/deposit_data.json"
    = result_bind (generate_validators_tree (collab := toy_collaborators) "0xvault" deposit_data_a)
        (λ '(t, validators), Return {| dd_validators := validators; dd_tree := t |})
  ∧ ∀ deposit_data,
      load_deposit_data (collab := toy_collaborators) toy_json_load deposit_fs
        "0xvault" "/data/deposit_data.json" = Return deposit_data →
      length (dd_validators deposit_data) = length deposit_data_a
      ∧ ∀ i validator, dd_validators deposit_data !! i = Some validator →
          deposit_data_index validator = Z.of_nat i.
Proof.
  split; [reflexivity|].
  apply (load_deposit_data_of_array (collab := toy_collaborators) toy_json_load deposit_fs
           "0xvault" "/data/deposit_data.json" "[a, b]" deposit_data_a); reflexivity.
Defined.

(** X20.  [load_deposit_data] raises the exception of a file that cannot be
    opened or read (the [OSError] of a missing file, the decoding error of
    bytes that are not UTF-8) and the exception of [json.load]; and when the JSON is not an
    array of objects it raises a [TypeError]: for a number or [null], which
    cannot be iterated, for a non-empty object, whose keys are strings, and
    for an array whose first item is not an object. *)
Theorem load_deposit_data_errors {collab : TreeCollaborators}
    (json_load : string → result pyval) (fs : FileSystem) (vault : string)
    (deposit_data_file : string) :
  (∀ e, file_text fs deposit_data_file = Raise e →
        load_deposit_data json_load fs vault deposit_data_file = Raise e)
  ∧ ∀ text,
      file_text fs deposit_data_file = Return text →
      (∀ e, json_load text = Raise e →
         load_deposit_data json_load fs vault deposit_data_file = Raise e)
      ∧ ∀ v,
          json_load text = Return v →
          (v = PNone ∨ (∃ z, v = PInt z) ∨ (∃ kv d, v = PDict (kv :: d))
           ∨ (∃ item items, v = PList (item :: items) ∧ ∀ d, item ≠ PDict d)) →
          ∃ msg, load_deposit_data json_load fs vault deposit_data_file = Raise (TypeError msg).
Proof.
  unfold load_deposit_data. split; [by intros e ->|].
  intros text ->. simpl. split; [by intros e ->|].
  intros v -> Hv. simpl. unfold generate_validators_tree_any.
  destruct Hv as [->|[[z ->]|[([k x] & d & ->)|(item & items & -> & Hitem)]]]; simpl; eauto.
  destruct item; simpl; eauto. by destruct (Hitem d).
Qed.

Lemma load_deposit_data_errors_witness :
  load_deposit_data (collab := toy_collaborators) toy_json_load deposit_fs
    "0xvault" "/data/missing.json" = Raise (OSError "/data/missing.json")
  ∧ ∃ msg, load_deposit_data (collab := toy_collaborators) toy_json_load deposit_fs
             "0xvault" "/data/object.json" = Raise (TypeError msg).
Proof.
  destruct (load_deposit_data_errors (collab := toy_collaborators) toy_json_load deposit_fs
              "0xvault" "/data/missing.json") as [Hmissing _].
  destruct (load_deposit_data_errors (collab := toy_collaborators) toy_json_load deposit_fs
              "0xvault" "/data/object.json") as [_ Hobject].
  split; [by apply Hmissing|].
  destruct (Hobject "{a}" eq_refl) as [_ Htype].
  apply (Htype (PDict [("validators", PList [])]) eq_refl).
  right. right. left. by exists ("validators", PList []), [].
Defined.
